(** * The integration driver [iterator] of MagCloakParticleSim (iterator.py)

    A shallow embedding of [iterator] and of the few NumPy operations it
    uses, followed by the properties of the driver loop: how many times the
    advance operation is applied, what is stored in the tracking arrays,
    how the arrays are trimmed on early exit, and what happens to the
    objects the caller passes in.

    Python objects that are mutated in place (NumPy arrays) live in a
    heap and are named by locations; numbers are plain values.  Every call
    of the advance operation and of the exit condition is recorded in a
    trace, so that the number of calls a run makes can be stated (the
    counting stub of property P7 of the specification). *)

From Stdlib Require Import ZArith QArith Lia.
From stdpp Require Import base list.

Local Open Scope nat_scope.

(** ** Objects, worlds and the execution monad *)

Definition loc := nat.

(** The Python exceptions that can end a run. *)
Inductive exn :=
| IndexError
| ValueError
| TypeError
| UnboundLocalError
| SystemExit.

Inductive outcome (A : Type) :=
| Done (a : A)
| Raise (e : exn).
Arguments Done {A} a.
Arguments Raise {A} e.

(** How a loop body ends: normally, or by [break]. *)
Inductive flow := Next | Break.

(** [range(a, b)]. *)
Definition range (a b : nat) : list nat := seq a (b - a).

(** The number of intervals of [N] steps needed to cover [n] steps,
    [ceil(n / N)]. *)
Definition intervals (n N : nat) : nat := (n + N - 1) / N.

(** The value of [trackint]: [None], an [int], or a (finite) [float] given
    by its exact value. *)
Inductive interval :=
| TNone
| TInt (z : Z)
| TFloat (q : Q).

(** The entries of [xs] whose index (counted from [base]) is not listed in
    [idxs]. *)
Fixpoint delete_at {A} (idxs : list nat) (base : nat) (xs : list A) : list A :=
  match xs with
  | [] => []
  | x :: xs' =>
      if existsb (Nat.eqb base) idxs
      then delete_at idxs (S base) xs'
      else x :: delete_at idxs (S base) xs'
  end.

(** [ntrack = 1 + (nmax+trackint-1)//trackint]: Python's floor division
    is [Z.div]. *)
Definition ntrack_of (nmax : nat) (trackint : Z) : Z :=
  (1 + (Z.of_nat nmax + trackint - 1) / trackint)%Z.

(** The length of the trailing loop,
    [nmax - (ntrack-2)*trackint], computed on the integers as Python does
    ([ntrack - 2] is negative when [nmax = 0]). *)
Definition tail_steps (nmax : nat) (trackint : Z) : Z :=
  (Z.of_nat nmax - (ntrack_of nmax trackint - 2) * trackint)%Z.

Section Driver.

(** The component type of float arrays.  The driver never computes on a
    component; it only moves them around. *)
Context {F : Type}.

(** A NumPy array of floats: one-dimensional (the state vector [y], the
    time track [t_arr]) or two-dimensional with rows of a fixed width (the
    state track [y_arr]). *)
Inductive ndarray :=
| Arr1 (data : list F)
| Arr2 (ncols : nat) (rows : list (list F)).

(** What an observer of a run sees: each call [step(t, y)], with the values
    it was called on, each call [exitcond(t, y)], and the printing of the
    error text. *)
Inductive event :=
| EvStep (t : F) (y : list F)
| EvExit (t : F) (y : list F)
| EvPrint.

(** [uninit l k] is what the allocator left in cell [k] of the array
    allocated at [l]: [np.empty] does not initialise its entries. *)
Record world := World {
  heap : list ndarray;
  trace : list event;
  uninit : loc -> nat -> F
}.

Definition M (A : Type) : Type := world -> outcome A * world.

Definition ret {A} (a : A) : M A := fun w => (Done a, w).

Definition raise {A} (e : exn) : M A := fun w => (Raise e, w).

Definition bind {A B} (m : M A) (k : A -> M B) : M B :=
  fun w => match m w with
           | (Done a, w') => k a w'
           | (Raise e, w') => (Raise e, w')
           end.

Notation "'do' p <- m ;; k" := (bind m (fun p => k))
  (at level 10, p pattern, m at level 99, k at level 200).
Notation "'exec' m ;; k" := (bind m (fun _ => k))
  (at level 10, m at level 99, k at level 200).

(** ** The NumPy operations the driver uses *)

Definition alloc (a : ndarray) : M loc :=
  fun w => (Done (length (heap w)),
            World (heap w ++ [a]) (trace w) (uninit w)).

(** The object a name refers to.  A Python name never dangles; a location
    outside the heap has no counterpart in the source and is reported as a
    [TypeError]. *)
Definition load (l : loc) : M ndarray :=
  fun w => match heap w !! l with
           | Some a => (Done a, w)
           | None => (Raise TypeError, w)
           end.

Definition store (l : loc) (a : ndarray) : M unit :=
  fun w => (Done tt, World (<[l := a]> (heap w)) (trace w) (uninit w)).

Definition log (e : event) : M unit :=
  fun w => (Done tt, World (heap w) (trace w ++ [e]) (uninit w)).

(** The cells of an uninitialised array of [r] cells allocated at [l], and
    the rows of one of [r] rows of width [c]. *)
Definition junk1 (w : world) (l : loc) (r : nat) : list F :=
  map (uninit w l) (seq 0 r).

Definition junk2 (w : world) (l : loc) (r c : nat) : list (list F) :=
  map (fun i => map (fun j => uninit w l (i * c + j)) (seq 0 c)) (seq 0 r).

(** [np.empty(n)]: a fresh one-dimensional array whose [n] cells hold
    whatever the allocator left there. *)
Definition np_empty (n : nat) : M loc :=
  fun w => alloc (Arr1 (junk1 w (length (heap w)) n)) w.

(** [np.empty((r, c))]. *)
Definition np_empty2 (r c : nat) : M loc :=
  fun w => alloc (Arr2 c (junk2 w (length (heap w)) r c)) w.

(** [np.zeros(n)]. *)
Definition np_zeros (zero : F) (n : nat) : M loc :=
  alloc (Arr1 (replicate n zero)).

(** [y.size]. *)
Definition size (l : loc) : M nat :=
  do a <- load l ;;
  ret (match a with
       | Arr1 v => length v
       | Arr2 c rows => length rows * c
       end).

(** The components of a state vector.  The state is one-dimensional (the
    docstring's "parameters of f other than time"). *)
Definition contents (l : loc) : M (list F) :=
  do a <- load l ;;
  match a with
  | Arr1 v => ret v
  | Arr2 _ _ => raise TypeError
  end.

(** [t_arr[i]] as an expression, for [i >= 0]. *)
Definition getitem (l : loc) (i : nat) : M F :=
  do a <- load l ;;
  match a with
  | Arr1 v => match v !! i with
              | Some x => ret x
              | None => raise IndexError
              end
  | Arr2 _ _ => raise TypeError
  end.

(** [y_arr[i, :]] as an expression: the values seen through the view. *)
Definition getrow (l : loc) (i : nat) : M (list F) :=
  do a <- load l ;;
  match a with
  | Arr2 _ rows => match rows !! i with
                   | Some r => ret r
                   | None => raise IndexError
                   end
  | Arr1 _ => raise TypeError
  end.

(** [t_arr[i] = x]. *)
Definition setitem (l : loc) (i : nat) (x : F) : M unit :=
  do a <- load l ;;
  match a with
  | Arr1 v => if decide (i < length v)
              then store l (Arr1 (<[i := x]> v))
              else raise IndexError
  | Arr2 _ _ => raise TypeError
  end.

(** [y_arr[i, :] = v]: the index is resolved first; then [v] is copied into
    the row, a one-element [v] being broadcast over it and any other length
    mismatch being a [ValueError]. *)
Definition setrow (l : loc) (i : nat) (v : list F) : M unit :=
  do a <- load l ;;
  match a with
  | Arr2 c rows =>
      if decide (i < length rows) then
        if decide (length v = c) then store l (Arr2 c (<[i := v]> rows))
        else match v with
             | [x] => store l (Arr2 c (<[i := replicate c x]> rows))
             | _ => raise ValueError
             end
      else raise IndexError
  | Arr1 _ => raise TypeError
  end.

(** How [np.delete] treats an index outside the array depends on the NumPy
    release: from 1.19 on it raises [IndexError] ([numpy_strict = true]);
    before, such indices were ignored with a deprecation warning
    ([numpy_strict = false]).  Both are covered. *)
Variable numpy_strict : bool.

(** [np.delete(arr, idxs, 0)]: a new array, without the listed entries
    along the first axis. *)
Definition np_delete (l : loc) (idxs : list nat) : M loc :=
  do a <- load l ;;
  let len := match a with Arr1 v => length v | Arr2 _ rows => length rows end in
  if numpy_strict && existsb (Nat.leb len) idxs then raise IndexError
  else match a with
       | Arr1 v => alloc (Arr1 (delete_at idxs 0 v))
       | Arr2 c rows => alloc (Arr2 c (delete_at idxs 0 rows))
       end.

(** ** Calls into the caller's functions *)

(** The advance operation is a pure function of the values of its two
    arguments (the step provider's contract); each call returns a new
    state array. *)
Definition apply_step (step : F -> list F -> F * list F) (t : F) (v : list F)
  : M (F * loc) :=
  exec log (EvStep t v) ;;
  let '(t', v') := step t v in
  do y' <- alloc (Arr1 v') ;;
  ret (t', y').

(** [step(t, y)] for a state object [y]. *)
Definition call_step step (t : F) (y : loc) : M (F * loc) :=
  do v <- contents y ;;
  apply_step step t v.

(** [exitcond(t, v)]: a pure predicate. *)
Definition apply_exit (exitcond : F -> list F -> bool) (t : F) (v : list F)
  : M bool :=
  exec log (EvExit t v) ;;
  ret (exitcond t v).

Definition call_exit exitcond (t : F) (y : loc) : M bool :=
  do v <- contents y ;;
  apply_exit exitcond t v.

(** ** Loops *)

(** [for i in xs: body], threading the local variables [s] the body
    assigns.  The result tells whether the loop ran to exhaustion ([Next],
    the case in which an [else] clause runs) or was left by [break], and
    what the loop variable is bound to afterwards: nothing when the loop
    body never ran. *)
Fixpoint for_in {S} (xs : list nat) (body : nat -> S -> M (flow * S))
  (i0 : option nat) (s : S) : M (flow * option nat * S) :=
  match xs with
  | [] => ret (Next, i0, s)
  | i :: xs' =>
      do (fl, s') <- body i s ;;
      match fl with
      | Break => ret (Break, Some i, s')
      | Next => for_in xs' body (Some i) s'
      end
  end.

(** Reading a local variable that may not have been assigned. *)
Definition local {A} (x : option A) : M A :=
  match x with
  | Some a => ret a
  | None => raise UnboundLocalError
  end.

(** [for j in range(k): t, y = step(t, y)]. *)
Definition take_steps step (k : nat) (t : F) (y : loc) : M (F * loc) :=
  do (_, _, ty) <-
    for_in (range 0 k)
      (fun _ '(t, y) => do ty' <- call_step step t y ;; ret (Next, ty'))
      None (t, y) ;;
  ret ty.

(** ** The driver *)

(** What [iterator] returns: the pair [(t, y)] when tracking is disabled,
    the pair [(t_arr, y_arr)] when it is enabled. *)
Inductive result :=
| FinalState (t : F) (y : loc)
| Trajectory (t_arr y_arr : loc).

(** Tracking disabled ([trackint is None]). *)
Definition no_tracking step (exitcond : option (F -> list F -> bool))
  (nmax : nat) (t : F) (y : loc) : M result :=
  match exitcond with
  | None =>
      do (t, y) <- take_steps step nmax t y ;;
      ret (FinalState t y)
  | Some p =>
      do (_, _, (t, y)) <-
        for_in (range 0 nmax)
          (fun _ '(t, y) =>
             do (t, y) <- call_step step t y ;;
             do b <- call_exit p t y ;;
             if b then ret (Break, (t, y)) else ret (Next, (t, y)))
          None (t, y) ;;
      ret (FinalState t y)
  end.

(** [t_arr[i] = t] followed by [y_arr[i, :] = y], written as two
    statements or as the assignment [t_arr[i], y_arr[i, :] = t, y]. *)
Definition record_sample (t_arr y_arr : loc) (i : nat) (t : F) (y : loc)
  : M unit :=
  exec setitem t_arr i t ;;
  do v <- contents y ;;
  setrow y_arr i v.

(** Tracking of every step ([trackint == 1]).  [del t, y] only unbinds the
    two names, which are not read afterwards. *)
Definition track_all step (exitcond : option (F -> list F -> bool))
  (nmax : nat) (t : F) (y : loc) : M result :=
  do t_arr <- np_empty (nmax + 1) ;;
  do m <- size y ;;
  do y_arr <- np_empty2 (nmax + 1) m ;;
  exec record_sample t_arr y_arr 0 t y ;;
  match exitcond with
  | None =>
      exec for_in (range 1 (nmax + 1))
        (fun i _ =>
           do ti <- getitem t_arr (i - 1) ;;
           do vi <- getrow y_arr (i - 1) ;;
           do (t', y') <- apply_step step ti vi ;;
           exec record_sample t_arr y_arr i t' y' ;;
           ret (Next, tt))
        None tt ;;
      ret (Trajectory t_arr y_arr)
  | Some p =>
      do (_, _, (t_arr, y_arr)) <-
        for_in (range 1 (nmax + 1))
          (fun i '(t_arr, y_arr) =>
             do ti <- getitem t_arr (i - 1) ;;
             do vi <- getrow y_arr (i - 1) ;;
             do (t', y') <- apply_step step ti vi ;;
             exec record_sample t_arr y_arr i t' y' ;;
             do ti <- getitem t_arr i ;;
             do vi <- getrow y_arr i ;;
             do b <- apply_exit p ti vi ;;
             if b then
               do t_arr' <- np_delete t_arr (range (i + 1) (nmax + 1)) ;;
               do y_arr' <- np_delete y_arr (range (i + 1) (nmax + 1)) ;;
               ret (Break, (t_arr', y_arr'))
             else ret (Next, (t_arr, y_arr)))
          None (t_arr, y_arr) ;;
      ret (Trajectory t_arr y_arr)
  end.

(** The trailing computation: the last loop over sub-steps, and the
    assignment at index [i], the variable of the main loop. *)
Definition final_tracked step (nmax : nat) (trackint : Z)
  (t_arr y_arr : loc) (i : option nat) (t : F) (y : loc) : M unit :=
  do (t, y) <- take_steps step (Z.to_nat (tail_steps nmax trackint)) t y ;;
  do i <- local i ;;
  record_sample t_arr y_arr i t y.

(** Tracking of every [trackint]-th step ([trackint > 1]). *)
Definition track_interval step (exitcond : option (F -> list F -> bool))
  (nmax : nat) (trackint : Z) (t : F) (y : loc) : M result :=
  let ntrack := ntrack_of nmax trackint in
  do t_arr <- np_empty (Z.to_nat (ntrack + 1)) ;;
  do m <- size y ;;
  do y_arr <- np_empty2 (Z.to_nat (ntrack + 1)) m ;;
  exec record_sample t_arr y_arr 0 t y ;;
  match exitcond with
  | None =>
      do (_, i, (t, y)) <-
        for_in (range 1 (Z.to_nat ntrack))
          (fun i '(t, y) =>
             do (t, y) <- take_steps step (Z.to_nat trackint) t y ;;
             exec record_sample t_arr y_arr i t y ;;
             ret (Next, (t, y)))
          None (t, y) ;;
      exec final_tracked step nmax trackint t_arr y_arr i t y ;;
      ret (Trajectory t_arr y_arr)
  | Some p =>
      do (fl, i, (t, y, t_arr, y_arr)) <-
        for_in (range 1 (nmax + 1))
          (fun i '(t, y, t_arr, y_arr) =>
             do (t, y) <- take_steps step (Z.to_nat trackint) t y ;;
             exec record_sample t_arr y_arr i t y ;;
             do ti <- getitem t_arr i ;;
             do vi <- getrow y_arr i ;;
             do b <- apply_exit p ti vi ;;
             if b then
               do t_arr' <- np_delete t_arr (range (i + 1) (nmax + 1)) ;;
               do y_arr' <- np_delete y_arr (range (i + 1) (nmax + 1)) ;;
               ret (Break, (t, y, t_arr', y_arr'))
             else ret (Next, (t, y, t_arr, y_arr)))
          None (t, y, t_arr, y_arr) ;;
      match fl with
      | Break => ret (Trajectory t_arr y_arr)
      | Next =>
          exec final_tracked step nmax trackint t_arr y_arr i t y ;;
          ret (Trajectory t_arr y_arr)
      end
  end.

(** The last branch: the error text is printed and [SystemExit] raised. *)
Definition invalid_interval : M result :=
  exec log EvPrint ;;
  raise SystemExit.

(** The step provider [setstep] belongs to the module [stepsetter], which
    is not part of the driver: it is a parameter.  Given the equation, the
    method and the step size it yields the advance operation. *)
Context {Eqn Method : Type}.
Variable setstep : Eqn -> Method -> F -> (F -> list F -> F * list F).

(** The default of [y] is evaluated once, when the [def] statement runs;
    the function object keeps the array. *)
Record function := Function { y_default : loc }.

Definition def_iterator (zero : F) : M function :=
  do y <- np_zeros zero 6 ;;
  ret (Function y).

(** [iterator(f, h, method, t, y=np.zeros(6), nmax=1000, exitcond=None,
    trackint=None)].  An omitted [y] or [nmax] is [None] here; for
    [exitcond] and [trackint] the default is Python's [None] itself.
    With a [float] interval above 1, [ntrack] is a [float] and
    [np.empty(ntrack+1)] raises [TypeError]. *)
Definition iterator (fn : function) (f : Eqn) (h : F) (method : Method)
  (t : F) (y : option loc) (nmax : option nat)
  (exitcond : option (F -> list F -> bool)) (trackint : interval)
  : M result :=
  let y := default (y_default fn) y in
  let nmax := default 1000 nmax in
  let step := setstep f method h in
  match trackint with
  | TNone => no_tracking step exitcond nmax t y
  | TInt z =>
      if (z =? 1)%Z then track_all step exitcond nmax t y
      else if (1 <? z)%Z then track_interval step exitcond nmax z t y
      else invalid_interval
  | TFloat q =>
      if Qeq_bool q 1 then track_all step exitcond nmax t y
      else if negb (Qle_bool q 1) then raise TypeError
      else invalid_interval
  end.

(** ** Notions used to state the properties *)

(** A trajectory sample is a pair of type [F * list F]: a time and the
    components of a state. *)

Definition advance (step : F -> list F -> F * list F) (s : F * list F)
  : F * list F :=
  step s.1 s.2.

(** The advance operation applied [k] times. *)
Fixpoint after step (k : nat) (s : F * list F) : F * list F :=
  match k with
  | 0 => s
  | S k' => after step k' (advance step s)
  end.

(** The first [k] samples of the orbit of [s]: [s] itself, then the
    advance operation applied once, twice, ... *)
Definition orbit (step : F -> list F -> F * list F) (k : nat) (s : F * list F)
  : list (F * list F) :=
  map (fun i => after step i s) (seq 0 k).

(** The events of [k] successive calls of the advance operation, the first
    on [s] and each of the others on the result of the one before. *)
Fixpoint step_events step (k : nat) (s : F * list F) : list event :=
  match k with
  | 0 => []
  | S k' => EvStep s.1 s.2 :: step_events step k' (advance step s)
  end.

(** The state arrays these [k] calls return. *)
Fixpoint step_states step (k : nat) (s : F * list F) : list ndarray :=
  match k with
  | 0 => []
  | S k' => Arr1 (advance step s).2 :: step_states step k' (advance step s)
  end.

(** Where the state is after [k] calls made in a heap of [len] objects: at
    [y] still when no call was made, else in the last array allocated. *)
Definition state_loc (y : loc) (len k : nat) : loc :=
  match k with
  | 0 => y
  | S k' => len + k'
  end.

(** The array [g] once its first cells were overwritten with [xs]. *)
Definition written {A} (g xs : list A) : list A :=
  xs ++ drop (length xs) g.

(** The world during a tracking run started in [w]: the heap of [w], then
    the two tracking arrays, of capacity [c] and row width [m], whose first
    entries were overwritten with the samples [xs], then the arrays [r]
    allocated since; the trace of [w] extended by [tr]. *)
Definition tracking (w : world) (m c : nat) (xs : list (F * list F))
  (r : list ndarray) (tr : list event) : world :=
  let l := length (heap w) in
  World (heap w
           ++ Arr1 (written (junk1 w l c) xs.*1)
           :: Arr2 m (written (junk2 w (S l) c m) xs.*2)
           :: r)
        (trace w ++ tr) (uninit w).

(** The first [k] samples tracked every [N] steps: [s], then the advance
    operation applied [N], [2 N], ... times. *)
Definition tracked (step : F -> list F -> F * list F) (N k : nat)
  (s : F * list F) : list (F * list F) :=
  map (fun i => after step (i * N) s) (seq 0 k).

(** The events of [k] tracked intervals with an exit test: [N] calls of
    the advance operation, then one call of the exit condition on the
    sample reached. *)
Fixpoint interval_events step (N k : nat) (s : F * list F) : list event :=
  match k with
  | 0 => []
  | S k' =>
      step_events step N s
        ++ EvExit (after step N s).1 (after step N s).2
        :: interval_events step N k' (after step N s)
  end.

(** During such a run the state array [y] holds [v], whatever the tracking
    arrays contain. *)
Definition state_at (w : world) (r : list ndarray) (y : loc) (v : list F)
  : Prop :=
  forall a b, (heap w ++ a :: b :: r) !! y = Some (Arr1 v).

(** A computation that, whatever its outcome, modifies no object: it
    only allocates. *)
Definition appends {A} (m : M A) : Prop :=
  forall w, exists ext, heap (m w).2 = heap w ++ ext.

(** A heap of a tracking run started with the objects [h0] and the
    initial sample [(t, v)]: the objects [h0] are as they were, and the
    tracking arrays [t_arr] and [y_arr], allocated since, hold the initial
    sample at index 0. *)
Definition tracked_ok (h0 : list ndarray) (t : F) (v : list F)
  (t_arr y_arr : loc) (h : list ndarray) : Prop :=
  (exists ext, h = h0 ++ ext) /\
  length h0 <= t_arr /\ length h0 <= y_arr /\
  (exists T, h !! t_arr = Some (Arr1 T) /\ T !! 0 = Some t) /\
  (exists m Y, h !! y_arr = Some (Arr2 m Y) /\ Y !! 0 = Some v).

(** What is to hold of the outcome of a run started with the objects [h0]
    and the initial sample [(t, v)]: the objects [h0] are as they were,
    and returned tracking arrays are new objects that hold the initial
    sample at index 0. *)
Definition frame_post (h0 : list ndarray) (t : F) (v : list F)
  (rw : outcome result * world) : Prop :=
  (exists ext, heap rw.2 = h0 ++ ext) /\
  forall t_arr y_arr,
    rw.1 = Done (Trajectory t_arr y_arr) ->
    tracked_ok h0 t v t_arr y_arr (heap rw.2).

(** The number of [EvStep] events of a trace: how often the advance
    operation was called. *)
Fixpoint step_calls (tr : list event) : nat :=
  match tr with
  | [] => 0
  | EvStep _ _ :: tr' => S (step_calls tr')
  | _ :: tr' => step_calls tr'
  end.

(** The number of [EvExit] events of a trace: how often the exit
    condition was called. *)
Fixpoint exit_calls (tr : list event) : nat :=
  match tr with
  | [] => 0
  | EvExit _ _ :: tr' => S (exit_calls tr')
  | _ :: tr' => exit_calls tr'
  end.

(** Whether the exit condition [p] holds of the [i]-th of the samples
    taken every [N] steps, and the first of the samples [1], ..., [n] of
    which it holds, if there is one. *)
Definition fires (p : F -> list F -> bool) step (N : nat) (s : F * list F)
  (i : nat) : bool :=
  p (after step (i * N) s).1 (after step (i * N) s).2.

Definition exit_index (p : F -> list F -> bool) step (N n : nat)
  (s : F * list F) : option nat :=
  find (fires p step N s) (seq 1 n).

(** [wp m Q E w]: run from [w], [m] either returns a value and a world
    satisfying [Q] or raises an exception that, with the world it is raised
    in, satisfies [E]. *)
Definition wp {A} (m : M A) (Q : A -> world -> Prop)
  (E : exn -> world -> Prop) (w : world) : Prop :=
  match m w with
  | (Done a, w') => Q a w'
  | (Raise e, w') => E e w'
  end.

End Driver.

(** ** A concrete advance operation, for examples *)

Module Demo.

(** Time advances by one and every component by ten. *)
Definition step (t : Z) (y : list Z) : Z * list Z :=
  ((t + 1)%Z, map (Z.add 10) y).

Definition setstep (_ _ : unit) (_ : Z) := step.

(** An advance operation that does not keep the length of the state. *)
Definition grow (t : Z) (y : list Z) : Z * list Z :=
  ((t + 1)%Z, 0%Z :: y).

(** A world with the caller's state vector [[0; 0]] at location 0. *)
Definition w0 (junk : Z) : world :=
  World [Arr1 [0%Z; 0%Z]] [] (fun _ _ => junk).

Abbreviation run strict junk nmax exitcond trackint :=
  (iterator strict setstep (Function 0) tt 0%Z tt 0%Z (Some 0) (Some nmax)
     exitcond trackint (w0 junk)).

End Demo.

(** * Properties *)

(** ** Lists: overwritten prefixes and deleted ranges *)

Section Lists.
Context {A : Type}.
Implicit Types g xs : list A.

Lemma length_written g xs :
  length xs <= length g -> length (written g xs) = length g.
Proof.
  intros H. unfold written. rewrite length_app, length_drop. lia.
Qed.

Lemma written_full g xs : length xs = length g -> written g xs = xs.
Proof.
  intros H. unfold written. rewrite drop_ge by lia. apply app_nil_r.
Qed.

Lemma written_lookup_l g xs i :
  i < length xs -> written g xs !! i = xs !! i.
Proof. intros H. unfold written. by rewrite lookup_app_l. Qed.

(** Writing the first cell not yet written. *)
Lemma written_snoc g xs x :
  length xs < length g ->
  <[length xs := x]> (written g xs) = written g (xs ++ [x]).
Proof.
  intros H. unfold written.
  rewrite insert_app_r_alt by lia. rewrite Nat.sub_diag.
  destruct (drop (length xs) g) as [|d ds] eqn:Hd.
  - apply (f_equal length) in Hd. rewrite length_drop in Hd. simpl in Hd. lia.
  - simpl. rewrite <- app_assoc. simpl. do 2 f_equal.
    rewrite length_app. simpl.
    rewrite <- drop_drop. by rewrite Hd.
Qed.

Lemma written_snoc_at g xs x k :
  length xs = k -> k < length g ->
  <[k := x]> (written g xs) = written g (xs ++ [x]).
Proof. intros <-. apply written_snoc. Qed.

(** Writing the last written cell again. *)
Lemma written_again g xs x x' :
  <[length xs := x']> (written g (xs ++ [x])) = written g (xs ++ [x']).
Proof.
  unfold written. rewrite !length_app. simpl.
  rewrite <- !app_assoc. rewrite insert_app_r_alt by lia.
  rewrite Nat.sub_diag. done.
Qed.

Lemma written_init g x :
  0 < length g -> <[0 := x]> g = written g [x].
Proof. intros H. destruct g; simpl in *; [lia | done]. Qed.

Lemma existsb_eqb_seq base a c :
  existsb (Nat.eqb base) (seq a c) = bool_decide (a <= base < a + c).
Proof.
  case_bool_decide as Hb.
  - apply existsb_exists. exists base. split.
    + apply in_seq. lia.
    + by apply Nat.eqb_eq.
  - apply not_true_iff_false. intros (j & Hj & Heq)%existsb_exists.
    apply Nat.eqb_eq in Heq. subst j. apply in_seq in Hj. lia.
Qed.

(** Deleting the indices [a], ..., [a + c - 1]. *)
Lemma delete_at_seq a c base xs :
  delete_at (seq a c) base xs = take (a - base) xs ++ drop (a + c - base) xs.
Proof.
  revert base. induction xs as [|x xs IH]; intros base; simpl.
  - by rewrite take_nil, drop_nil.
  - rewrite existsb_eqb_seq, IH. case_bool_decide as Hb.
    + replace (a - base) with 0 by lia.
      replace (a - S base) with 0 by lia.
      replace (a + c - base) with (S (a + c - S base)) by lia. done.
    + destruct (decide (base < a)).
      * replace (a - base) with (S (a - S base)) by lia.
        replace (a + c - base) with (S (a + c - S base)) by lia. done.
      * replace (a - base) with 0 by lia.
        replace (a - S base) with 0 by lia.
        replace (a + c - base) with 0 by lia.
        replace (a + c - S base) with 0 by lia. done.
Qed.

Lemma delete_at_range a b xs :
  delete_at (range a b) 0 xs = take a xs ++ drop (a + (b - a)) xs.
Proof.
  unfold range. rewrite delete_at_seq. by rewrite !Nat.sub_0_r.
Qed.

(** Deleting the indices from the first entry not written up to [b]. *)
Lemma trim_written_drop g xs a b :
  length xs = a -> a <= b ->
  delete_at (range a b) 0 (written g xs) = xs ++ drop b g.
Proof.
  intros <- Hb. rewrite delete_at_range. unfold written.
  rewrite take_app_length. f_equal.
  replace (length xs + (b - length xs)) with b by lia.
  rewrite drop_app_ge by done. rewrite drop_drop. f_equal. lia.
Qed.

(** Deleting all that follows the entries written. *)
Lemma trim_written g xs a b :
  length xs = a -> length xs <= length g -> length g <= b ->
  delete_at (range a b) 0 (written g xs) = xs.
Proof.
  intros Ha Hg Hb. rewrite trim_written_drop by lia.
  rewrite drop_ge by done. apply app_nil_r.
Qed.

(** An array with exactly one entry left unwritten. *)
Lemma written_but_last g xs d :
  S (length xs) = length g ->
  written g xs = xs ++ [default d (last g)].
Proof.
  intros Hlen. unfold written. f_equal.
  destruct g as [|g0 g] using rev_ind; [done|].
  rewrite length_app in Hlen. simpl in Hlen.
  rewrite last_snoc. simpl. rewrite drop_app_length'; [done|lia].
Qed.

Lemma last_map_seq (f : nat -> A) k :
  last (map f (seq 0 (S k))) = Some (f k).
Proof. rewrite seq_S, map_app. cbn [map]. by rewrite last_snoc. Qed.

(** The heap during a tracking run: the objects [h] that existed before,
    the two tracking arrays [a] and [b], and the arrays [r] allocated
    since. *)
Lemma lookup_track0 (h r : list A) a : (h ++ a :: r) !! length h = Some a.
Proof. by apply list_lookup_middle. Qed.

Lemma lookup_track1 (h r : list A) a b :
  (h ++ a :: b :: r) !! S (length h) = Some b.
Proof.
  rewrite lookup_app_r by lia. by replace (S (length h) - length h) with 1 by lia.
Qed.

Lemma insert_track0 (h r : list A) a a' :
  <[length h := a']> (h ++ a :: r) = h ++ a' :: r.
Proof. rewrite insert_app_r_alt by lia. by rewrite Nat.sub_diag. Qed.

Lemma insert_track1 (h r : list A) a b b' :
  <[S (length h) := b']> (h ++ a :: b :: r) = h ++ a :: b' :: r.
Proof.
  rewrite insert_app_r_alt by lia.
  by replace (S (length h) - length h) with 1 by lia.
Qed.

Lemma length_track (h r : list A) a b :
  length (h ++ a :: b :: r) = S (S (length h + length r)).
Proof. rewrite length_app. simpl. lia. Qed.

Lemma lookup_track_new (h r : list A) a b c k :
  length r = k ->
  (h ++ a :: b :: r ++ [c]) !! S (S (length h + k)) = Some c.
Proof.
  intros <-. rewrite lookup_app_r by lia.
  replace (S (S (length h + length r)) - length h) with (S (S (length r)))
    by lia.
  simpl. by apply list_lookup_middle.
Qed.

(** The two arrays [np.delete] returns are allocated last. *)
Lemma lookup_track_trim0 (h r : list A) a b c d k :
  length r = k ->
  (h ++ a :: b :: r ++ [c; d]) !! S (S (length h + k)) = Some c.
Proof.
  intros <-. rewrite lookup_app_r by lia.
  replace (S (S (length h + length r)) - length h) with (S (S (length r)))
    by lia.
  simpl. by apply list_lookup_middle.
Qed.

Lemma lookup_track_trim1 (h r : list A) a b c d k :
  length r = k ->
  (h ++ a :: b :: r ++ [c; d]) !! S (S (S (length h + k))) = Some d.
Proof.
  intros <-. rewrite lookup_app_r by lia.
  replace (S (S (S (length h + length r))) - length h)
    with (S (S (S (length r)))) by lia.
  simpl. rewrite lookup_app_r by lia.
  by replace (S (length r) - length r) with 1 by lia.
Qed.

Lemma app_track (h r : list A) a b c :
  (h ++ a :: b :: r) ++ [c] = h ++ a :: b :: r ++ [c].
Proof. by rewrite <- app_assoc. Qed.

End Lists.

(** ** Reasoning about runs *)

Section Logic.
Context {F : Type}.
Implicit Types (w : world (F:=F)) (l : loc) (E : exn -> world (F:=F) -> Prop).

Lemma wp_ret {A} (a : A) (Q : A -> world -> Prop) E w :
  Q a w -> wp (ret a) Q E w.
Proof. done. Qed.

Lemma wp_raise {A} e (Q : A -> world -> Prop) E w :
  E e w -> wp (raise e) Q E w.
Proof. done. Qed.

Lemma wp_bind {A B} (m : M A) (k : A -> M B) (Q : B -> world -> Prop) E w :
  wp m (fun a => wp (k a) Q E) E w -> wp (bind m k) Q E w.
Proof. unfold wp, bind. by destruct (m w) as [[a|e] w']. Qed.

Lemma wp_mono {A} (m : M A) (Q Q' : A -> world -> Prop) E E' w :
  (forall a w', Q a w' -> Q' a w') ->
  (forall e w', E e w' -> E' e w') ->
  wp m Q E w -> wp m Q' E' w.
Proof. unfold wp. intros HQ HE. destruct (m w) as [[a|e] w']; eauto. Qed.

(** A run that cannot raise returns. *)
Lemma wp_done {A} (m : M A) (Q : A -> world -> Prop) w :
  wp m Q (fun _ _ => False) w -> exists a w', m w = (Done a, w') /\ Q a w'.
Proof. unfold wp. destruct (m w) as [[a|e] w']; [eauto | done]. Qed.

(** Reading off the result of a run. *)
Lemma wp_eq {A} (m : M A) w a0 w0 :
  wp m (fun a w' => a = a0 /\ w' = w0) (fun _ _ => False) w ->
  m w = (Done a0, w0).
Proof. intros (a & w' & -> & -> & ->)%wp_done. done. Qed.

(** The loop rule for [for i in range(a, a + k)], with an invariant over
    the number of iterations done. *)
Lemma wp_for_seq {St} (I : nat -> option nat -> St -> world -> Prop)
    (body : nat -> St -> M (flow * St))
    (Q : flow * option nat * St -> world -> Prop) E a k i0 s w :
  (forall j io s w, j < k -> I j io s w ->
     wp (body (a + j) s)
        (fun r w' => match r.1 with
                     | Next => I (S j) (Some (a + j)) r.2 w'
                     | Break => Q (Break, Some (a + j), r.2) w'
                     end) E w) ->
  (forall io s w, I k io s w -> Q (Next, io, s) w) ->
  I 0 i0 s w ->
  wp (for_in (seq a k) body i0 s) Q E w.
Proof.
  revert I a i0 s w. induction k as [|k IH]; intros I a i0 s w Hbody Hend H0.
  - simpl. by apply Hend.
  - simpl. apply wp_bind.
    pose proof (Hbody 0 i0 s w ltac:(lia) H0) as Hb.
    rewrite Nat.add_0_r in Hb.
    eapply wp_mono; [| |exact Hb]; [|done].
    intros [[] s'] w'; simpl; intros H1.
    + apply (IH (fun j => I (S j))); [| |done].
      * intros j io s1 w1 Hj HI.
        replace (S a + j) with (a + S j) by lia.
        apply (Hbody (S j) io); [lia|done].
      * done.
    + by apply wp_ret.
Qed.

(** *** The primitive operations, when they succeed *)

Lemma wp_size l v (Q : nat -> world -> Prop) E w :
  heap w !! l = Some (Arr1 v) -> Q (length v) w -> wp (size l) Q E w.
Proof. unfold wp, size, bind, load. by intros ->. Qed.

Lemma wp_contents l v (Q : list F -> world -> Prop) E w :
  heap w !! l = Some (Arr1 v) -> Q v w -> wp (contents l) Q E w.
Proof. unfold wp, contents, bind, load. by intros ->. Qed.

Lemma wp_getitem l T i x (Q : F -> world -> Prop) E w :
  heap w !! l = Some (Arr1 T) -> T !! i = Some x -> Q x w ->
  wp (getitem l i) Q E w.
Proof. unfold wp, getitem, bind, load. by intros -> ->. Qed.

Lemma wp_getrow l c Y i v (Q : list F -> world -> Prop) E w :
  heap w !! l = Some (Arr2 c Y) -> Y !! i = Some v -> Q v w ->
  wp (getrow l i) Q E w.
Proof. unfold wp, getrow, bind, load. by intros -> ->. Qed.

Lemma wp_setitem l T i x (Q : unit -> world -> Prop) E w :
  heap w !! l = Some (Arr1 T) -> i < length T ->
  Q tt (World (<[l := Arr1 (<[i := x]> T)]> (heap w)) (trace w) (uninit w)) ->
  wp (setitem l i x) Q E w.
Proof.
  unfold wp, setitem, bind, load. intros -> Hi. by rewrite decide_True.
Qed.

Lemma wp_setrow l c Y i v (Q : unit -> world -> Prop) E w :
  heap w !! l = Some (Arr2 c Y) -> i < length Y -> length v = c ->
  Q tt (World (<[l := Arr2 c (<[i := v]> Y)]> (heap w)) (trace w) (uninit w)) ->
  wp (setrow l i v) Q E w.
Proof.
  unfold wp, setrow, bind, load. intros -> Hi Hv.
  by rewrite !decide_True.
Qed.

Lemma wp_np_empty n (Q : loc -> world -> Prop) E w :
  Q (length (heap w))
    (World (heap w ++ [Arr1 (junk1 w (length (heap w)) n)])
           (trace w) (uninit w)) ->
  wp (np_empty n) Q E w.
Proof. done. Qed.

Lemma wp_np_empty2 r c (Q : loc -> world -> Prop) E w :
  Q (length (heap w))
    (World (heap w ++ [Arr2 c (junk2 w (length (heap w)) r c)])
           (trace w) (uninit w)) ->
  wp (np_empty2 r c) Q E w.
Proof. done. Qed.

Lemma wp_apply_step step t v (Q : F * loc -> world -> Prop) E w :
  Q ((step t v).1, length (heap w))
    (World (heap w ++ [Arr1 (step t v).2]) (trace w ++ [EvStep t v])
           (uninit w)) ->
  wp (apply_step step t v) Q E w.
Proof. unfold wp, apply_step, bind, log. simpl. by destruct (step t v). Qed.

Lemma wp_apply_exit p t v (Q : bool -> world -> Prop) E w :
  Q (p t v) (World (heap w) (trace w ++ [EvExit t v]) (uninit w)) ->
  wp (apply_exit p t v) Q E w.
Proof. done. Qed.

(** A property of the outcome and the final world, whatever they are. *)
Lemma wp_post {A} (m : M A) (P : outcome A * world -> Prop) w :
  wp m (fun a w' => P (Done a, w')) (fun e w' => P (Raise e, w')) w ->
  P (m w).
Proof. unfold wp. by destruct (m w) as [[a|e] w']. Qed.

Lemma existsb_leb_range len a b :
  existsb (Nat.leb len) (range a b) = bool_decide (a < b /\ len < b).
Proof.
  unfold range. case_bool_decide as Hb.
  - apply existsb_exists. exists (b - 1). split.
    + apply in_seq. lia.
    + apply Nat.leb_le. lia.
  - apply not_true_iff_false. intros (j & Hj & Hle)%existsb_exists.
    apply Nat.leb_le in Hle. apply in_seq in Hj. lia.
Qed.

Lemma wp_np_delete1 strict l T idxs (Q : loc -> world -> Prop) E w :
  heap w !! l = Some (Arr1 T) ->
  strict && existsb (Nat.leb (length T)) idxs = false ->
  Q (length (heap w))
    (World (heap w ++ [Arr1 (delete_at idxs 0 T)]) (trace w) (uninit w)) ->
  wp (np_delete strict l idxs) Q E w.
Proof.
  unfold wp, np_delete, bind, load. intros -> Hb HQ. by rewrite Hb.
Qed.

Lemma wp_np_delete2 strict l c Y idxs (Q : loc -> world -> Prop) E w :
  heap w !! l = Some (Arr2 c Y) ->
  strict && existsb (Nat.leb (length Y)) idxs = false ->
  Q (length (heap w))
    (World (heap w ++ [Arr2 c (delete_at idxs 0 Y)]) (trace w) (uninit w)) ->
  wp (np_delete strict l idxs) Q E w.
Proof.
  unfold wp, np_delete, bind, load. intros -> Hb HQ. by rewrite Hb.
Qed.

Lemma wp_np_delete_raise strict l T idxs (Q : loc -> world -> Prop) E w :
  heap w !! l = Some (Arr1 T) ->
  strict && existsb (Nat.leb (length T)) idxs = true ->
  E IndexError w ->
  wp (np_delete strict l idxs) Q E w.
Proof.
  unfold wp, np_delete, bind, load. intros -> Hb HQ. by rewrite Hb.
Qed.

Lemma wp_local {A} (a : A) (Q : A -> world -> Prop) E w :
  Q a w -> wp (local (Some a)) Q E w.
Proof. done. Qed.

End Logic.

(** ** Repeated application of the advance operation *)

Section Steps.
Context {F : Type}.
Variable step : F -> list F -> F * list F.
Implicit Types (w : world (F:=F)) (s : F * list F).

Lemma after_S_r k s : after step (S k) s = advance step (after step k s).
Proof. revert s. induction k as [|k IH]; intros s; [done|]. simpl. apply IH. Qed.

Lemma after_add a b s : after step (a + b) s = after step b (after step a s).
Proof. revert s. induction a as [|a IH]; intros s; [done|]. simpl. apply IH. Qed.

Lemma step_events_add a b s :
  step_events step (a + b) s
  = step_events step a s ++ step_events step b (after step a s).
Proof.
  revert s. induction a as [|a IH]; intros s; [done|]. simpl. by rewrite IH.
Qed.

Lemma step_states_add a b s :
  step_states step (a + b) s
  = step_states step a s ++ step_states step b (after step a s).
Proof.
  revert s. induction a as [|a IH]; intros s; [done|]. simpl. by rewrite IH.
Qed.

Lemma step_events_S_r k s :
  step_events step (S k) s
  = step_events step k s ++ [EvStep (after step k s).1 (after step k s).2].
Proof.
  replace (S k) with (k + 1) by lia. by rewrite step_events_add.
Qed.

Lemma step_states_S_r k s :
  step_states step (S k) s
  = step_states step k s ++ [Arr1 (after step (S k) s).2].
Proof.
  replace (S k) with (k + 1) at 1 by lia.
  rewrite step_states_add. simpl. by rewrite <- after_S_r.
Qed.

Lemma length_step_states k s : length (step_states step k s) = k.
Proof. revert s. induction k as [|k IH]; intros s; simpl; [done|]. by rewrite IH. Qed.

Lemma step_calls_app (tr1 tr2 : list (event (F:=F))) :
  step_calls (tr1 ++ tr2) = step_calls tr1 + step_calls tr2.
Proof.
  induction tr1 as [|[] tr1 IH]; simpl; [done| |done|done]. by rewrite IH.
Qed.

Lemma step_calls_step_events k s : step_calls (step_events step k s) = k.
Proof. revert s. induction k as [|k IH]; intros s; simpl; [done|]. by rewrite IH. Qed.

Lemma interval_events_S_r N k s :
  interval_events step N (S k) s
  = interval_events step N k s
      ++ step_events step N (after step (k * N) s)
      ++ [EvExit (after step (S k * N) s).1 (after step (S k * N) s).2].
Proof.
  revert s. induction k as [|k IH]; intros s.
  - simpl. by rewrite Nat.add_0_r.
  - change (interval_events step N (S (S k)) s)
      with (step_events step N s
              ++ EvExit (after step N s).1 (after step N s).2
              :: interval_events step N (S k) (after step N s)).
    rewrite IH. cbn [interval_events].
    rewrite <- !after_add, <- !app_assoc. cbn [app].
    by replace (N + S k * N) with (S (S k) * N) by lia.
Qed.

(** The state array after [k] calls holds the state after [k] steps. *)
Lemma lookup_state_loc (h : list (ndarray (F:=F))) y t v k :
  h !! y = Some (Arr1 v) ->
  (h ++ step_states step k (t, v)) !! state_loc y (length h) k
  = Some (Arr1 (after step k (t, v)).2).
Proof.
  intros Hy. destruct k as [|k]; simpl state_loc.
  - simpl. rewrite app_nil_r. done.
  - rewrite step_states_S_r, app_assoc.
    replace (length h + k) with (length (h ++ step_states step k (t, v)))
      by (rewrite length_app, length_step_states; lia).
    apply list_lookup_middle. done.
Qed.

(** [for j in range(k): t, y = step(t, y)] makes [k] calls in a row and
    leaves in [t], [y] the sample after [k] steps. *)
Lemma wp_take_steps k t y v (Q : F * loc -> world -> Prop) E w :
  heap w !! y = Some (Arr1 v) ->
  Q ((after step k (t, v)).1, state_loc y (length (heap w)) k)
    (World (heap w ++ step_states step k (t, v))
           (trace w ++ step_events step k (t, v)) (uninit w)) ->
  wp (take_steps step k t y) Q E w.
Proof.
  intros Hy HQ. unfold take_steps, range. apply wp_bind.
  rewrite Nat.sub_0_r.
  apply (wp_for_seq
    (fun j _ ty w' =>
       ty = ((after step j (t, v)).1, state_loc y (length (heap w)) j) /\
       w' = World (heap w ++ step_states step j (t, v))
                  (trace w ++ step_events step j (t, v)) (uninit w))).
  - intros j io [t' y'] w' Hj [[= -> ->] ->]. cbn [fst snd].
    apply wp_bind. unfold call_step. apply wp_bind.
    eapply wp_contents; [by apply lookup_state_loc|].
    apply wp_apply_step, wp_ret. cbn [fst snd heap trace uninit state_loc].
    split.
    + rewrite after_S_r. unfold advance. f_equal.
      rewrite length_app, length_step_states. done.
    + rewrite step_states_S_r, step_events_S_r, after_S_r, !app_assoc.
      done.
  - intros io [t' y'] w' [[= -> ->] ->]. by apply wp_ret.
  - simpl. rewrite !app_nil_r. by destruct w.
Qed.

End Steps.

(** ** Tracking disabled *)

Section NoTracking.
Context {F Eqn Method : Type}.
Variable numpy_strict : bool.
Variable setstep : Eqn -> Method -> F -> F -> list F -> F * list F.
Implicit Types (w : world (F:=F)).

(** The run without tracking and without exit condition. *)
Lemma no_tracking_run fn f h method t y v n w :
  heap w !! y = Some (Arr1 v) ->
  let step := setstep f method h in
  iterator numpy_strict setstep fn f h method t (Some y) (Some n) None TNone w
  = (Done (FinalState (after step n (t, v)).1
             (state_loc y (length (heap w)) n)),
     World (heap w ++ step_states step n (t, v))
           (trace w ++ step_events step n (t, v)) (uninit w)).
Proof.
  intros Hy step. unfold iterator, no_tracking. cbn [default from_option id].
  apply wp_eq, wp_bind.
  eapply wp_take_steps; [done|]. by apply wp_ret.
Qed.

(** C7.  With tracking disabled and no exit condition, a run with
    [nmax = n] calls the advance operation exactly [n] times in a row,
    each call on the sample the previous one returned, and returns the pair
    of the time and the state array of the sample after [n] steps, the
    [n]-fold composition of the advance operation on the initial sample. *)
Theorem no_tracking_final_state fn f h method t y v n w :
  heap w !! y = Some (Arr1 v) ->
  let step := setstep f method h in
  let w' := World (heap w ++ step_states step n (t, v))
                  (trace w ++ step_events step n (t, v)) (uninit w) in
  let y' := state_loc y (length (heap w)) n in
  iterator numpy_strict setstep fn f h method t (Some y) (Some n) None TNone w
    = (Done (FinalState (after step n (t, v)).1 y'), w')
  /\ heap w' !! y' = Some (Arr1 (after step n (t, v)).2)
  /\ step_calls (trace w') = step_calls (trace w) + n.
Proof.
  intros Hy step w' y'. split; [|split].
  - by apply no_tracking_run.
  - by apply lookup_state_loc.
  - subst w'. cbn [trace]. by rewrite step_calls_app, step_calls_step_events.
Qed.

End NoTracking.

Lemma no_tracking_final_state_witness :
  Demo.run true 7 3 None TNone
  = (Done (FinalState 3%Z 3),
     World [Arr1 [0; 0]; Arr1 [10; 10]; Arr1 [20; 20]; Arr1 [30; 30]]%Z
           [EvStep 0 [0; 0]; EvStep 1 [10; 10]; EvStep 2 [20; 20]]%Z
           (fun _ _ => 7%Z)).
Proof.
  apply (no_tracking_final_state true Demo.setstep (Function 0) tt 0%Z tt
           0%Z 0 [0; 0]%Z 3 (Demo.w0 7)).
  reflexivity.
Defined.

(** ** The tracking arrays *)

Section Tracking.
Context {F : Type}.
Implicit Types (w : world (F:=F)) (s : F * list F) (xs : list (F * list F)).
Implicit Types (E : exn -> world (F:=F) -> Prop).

Lemma length_junk1 w l r : length (junk1 w l r) = r.
Proof. unfold junk1. by rewrite length_map, length_seq. Qed.

Lemma length_junk2 w l r c : length (junk2 w l r c) = r.
Proof. unfold junk2. by rewrite length_map, length_seq. Qed.

Lemma state_at_old w r y v : heap w !! y = Some (Arr1 v) -> state_at w r y v.
Proof.
  intros Hy a b. rewrite lookup_app_l; [done|]. by eapply lookup_lt_Some.
Qed.

Lemma state_at_new w r v k :
  length r = k -> state_at w (r ++ [Arr1 v]) (S (S (length (heap w) + k))) v.
Proof. intros Hk a b. by apply lookup_track_new. Qed.

Lemma state_at_steps step w r y t v k :
  state_at w r y v ->
  state_at w (r ++ step_states step k (t, v))
    (state_loc y (S (S (length (heap w) + length r))) k)
    (after step k (t, v)).2.
Proof.
  intros Hy a b.
  replace (heap w ++ a :: b :: r ++ step_states step k (t, v))
    with ((heap w ++ a :: b :: r) ++ step_states step k (t, v))
    by (by rewrite <- app_assoc).
  rewrite <- length_track with (a := a) (b := b).
  apply lookup_state_loc, Hy.
Qed.

(** The allocation of the two arrays and the recording of the initial
    sample. *)
Lemma wp_track_setup {A} c t y v (k : loc -> loc -> M A)
    (Q : A -> world -> Prop) E w :
  heap w !! y = Some (Arr1 v) ->
  0 < c ->
  wp (k (length (heap w)) (S (length (heap w)))) Q E
     (tracking w (length v) c [(t, v)] [] []) ->
  wp (bind (np_empty c) (fun t_arr =>
      bind (size y) (fun m =>
      bind (np_empty2 c m) (fun y_arr =>
      bind (record_sample t_arr y_arr 0 t y) (fun _ => k t_arr y_arr)))))
     Q E w.
Proof.
  intros Hy Hc Hk.
  assert (Hlt : y < length (heap w)) by by eapply lookup_lt_Some.
  apply wp_bind, wp_np_empty.
  apply wp_bind. eapply wp_size.
  { cbn [heap]. by rewrite lookup_app_l. }
  apply wp_bind, wp_np_empty2. cbn [heap trace uninit].
  rewrite length_app. cbn [length]. rewrite Nat.add_1_r, <- app_assoc.
  cbn [app].
  apply wp_bind. unfold record_sample.
  apply wp_bind. eapply wp_setitem.
  { cbn [heap]. apply lookup_track0. }
  { rewrite length_junk1. lia. }
  cbn [heap trace uninit]. rewrite insert_track0.
  apply wp_bind. eapply wp_contents.
  { cbn [heap]. by rewrite lookup_app_l. }
  eapply wp_setrow.
  { cbn [heap]. apply lookup_track1. }
  { rewrite length_junk2. lia. }
  { done. }
  cbn [heap trace uninit]. rewrite insert_track1.
  rewrite !written_init by (by rewrite ?length_junk1, ?length_junk2).
  unfold tracking in Hk. rewrite app_nil_r in Hk. exact Hk.
Qed.

(** Recording a sample in the first entry not yet written. *)
Lemma wp_record_snoc w m c xs r tr i t' y' v' (Q : unit -> world -> Prop) E :
  state_at w r y' v' ->
  length v' = m ->
  i = length xs ->
  i < c ->
  Q tt (tracking w m c (xs ++ [(t', v')]) r tr) ->
  wp (record_sample (length (heap w)) (S (length (heap w))) i t' y') Q E
     (tracking w m c xs r tr).
Proof.
  intros Hy Hv -> Hi HQ. unfold record_sample, tracking.
  apply wp_bind. eapply wp_setitem.
  { cbn [heap]. apply lookup_track0. }
  { rewrite length_written; rewrite length_junk1, ?length_fmap; lia. }
  cbn [heap trace uninit]. rewrite insert_track0.
  apply wp_bind. eapply wp_contents; [apply Hy|].
  eapply wp_setrow.
  { cbn [heap]. apply lookup_track1. }
  { rewrite length_written; rewrite length_junk2, ?length_fmap; lia. }
  { done. }
  cbn [heap trace uninit]. rewrite insert_track1.
  unfold tracking in HQ. rewrite !fmap_app in HQ.
  rewrite !(written_snoc_at _ _ _ (length xs)); [done| | | |];
    rewrite ?length_fmap, ?length_junk1, ?length_junk2; done.
Qed.

(** Recording a sample in the entry written last. *)
Lemma wp_record_again w m c xs x r tr i t' y' v' (Q : unit -> world -> Prop) E :
  state_at w r y' v' ->
  length v' = m ->
  i = length xs ->
  Q tt (tracking w m c (xs ++ [(t', v')]) r tr) ->
  wp (record_sample (length (heap w)) (S (length (heap w))) i t' y') Q E
     (tracking w m c (xs ++ [x]) r tr).
Proof.
  intros Hy Hv -> HQ. unfold record_sample, tracking.
  apply wp_bind. eapply wp_setitem.
  { cbn [heap]. apply lookup_track0. }
  { unfold written. rewrite length_app, length_fmap, length_app. simpl. lia. }
  cbn [heap trace uninit]. rewrite insert_track0.
  apply wp_bind. eapply wp_contents; [apply Hy|].
  eapply wp_setrow.
  { cbn [heap]. apply lookup_track1. }
  { unfold written. rewrite length_app, length_fmap, length_app. simpl. lia. }
  { done. }
  cbn [heap trace uninit]. rewrite insert_track1.
  unfold tracking in HQ. rewrite !fmap_app in HQ |- *.
  cbn [fmap list_fmap] in HQ |- *.
  rewrite <- (length_fmap fst xs) at 1. rewrite written_again.
  rewrite <- (length_fmap snd xs) at 1. rewrite written_again.
  done.
Qed.

(** Reading a recorded sample back. *)
Lemma wp_getitem_tracking w m c xs r tr i x (Q : F -> world -> Prop) E :
  xs !! i = Some x ->
  Q x.1 (tracking w m c xs r tr) ->
  wp (getitem (length (heap w)) i) Q E (tracking w m c xs r tr).
Proof.
  intros Hx HQ. eapply wp_getitem; [apply lookup_track0| |done].
  rewrite written_lookup_l.
  - by rewrite list_lookup_fmap, Hx.
  - rewrite length_fmap. by eapply lookup_lt_Some.
Qed.

Lemma wp_getrow_tracking w m c xs r tr i x (Q : list F -> world -> Prop) E :
  xs !! i = Some x ->
  Q x.2 (tracking w m c xs r tr) ->
  wp (getrow (S (length (heap w))) i) Q E (tracking w m c xs r tr).
Proof.
  intros Hx HQ. eapply wp_getrow; [apply lookup_track1| |done].
  rewrite written_lookup_l.
  - by rewrite list_lookup_fmap, Hx.
  - rewrite length_fmap. by eapply lookup_lt_Some.
Qed.

(** Calls of the caller's functions during a tracking run. *)
Lemma wp_apply_step_tracking step w m c xs r tr t v
    (Q : F * loc -> world -> Prop) E :
  Q ((step t v).1, S (S (length (heap w) + length r)))
    (tracking w m c xs (r ++ [Arr1 (step t v).2]) (tr ++ [EvStep t v])) ->
  wp (apply_step step t v) Q E (tracking w m c xs r tr).
Proof.
  intros HQ. apply wp_apply_step. unfold tracking in *. cbn [heap trace uninit].
  by rewrite app_track, length_track, <- app_assoc.
Qed.

Lemma wp_apply_exit_tracking p w m c xs r tr t v
    (Q : bool -> world -> Prop) E :
  Q (p t v) (tracking w m c xs r (tr ++ [EvExit t v])) ->
  wp (apply_exit p t v) Q E (tracking w m c xs r tr).
Proof.
  intros HQ. apply wp_apply_exit. unfold tracking in *. cbn [heap trace uninit].
  by rewrite <- app_assoc.
Qed.

Lemma wp_take_steps_tracking step w m c xs r tr k t y v
    (Q : F * loc -> world -> Prop) E :
  state_at w r y v ->
  Q ((after step k (t, v)).1,
     state_loc y (S (S (length (heap w) + length r))) k)
    (tracking w m c xs (r ++ step_states step k (t, v))
              (tr ++ step_events step k (t, v))) ->
  wp (take_steps step k t y) Q E (tracking w m c xs r tr).
Proof.
  intros Hy HQ. eapply wp_take_steps; [apply Hy|].
  unfold tracking in *. cbn [heap trace uninit].
  rewrite length_track, <- !app_assoc. exact HQ.
Qed.

(** The two [np.delete] calls that trim the arrays after the exit
    condition fired, when no index is rejected. *)
Lemma wp_trim {A} numpy_strict w m c xs r tr a b (k : loc -> loc -> M A)
    (Q : A -> world -> Prop) E :
  length xs <= c ->
  numpy_strict && bool_decide (a < b /\ c < b) = false ->
  (let l := length (heap w) in
   wp (k (S (S (l + length r))) (S (S (S (l + length r))))) Q E
     (tracking w m c xs
        (r ++ [Arr1 (delete_at (range a b) 0 (written (junk1 w l c) xs.*1));
               Arr2 m (delete_at (range a b) 0
                         (written (junk2 w (S l) c m) xs.*2))])
        tr)) ->
  wp (bind (np_delete numpy_strict (length (heap w)) (range a b))
        (fun t_arr' =>
           bind (np_delete numpy_strict (S (length (heap w))) (range a b))
             (fun y_arr' => k t_arr' y_arr')))
     Q E (tracking w m c xs r tr).
Proof.
  intros Hxs Hb Hk. cbn zeta in Hk. unfold tracking at 1.
  apply wp_bind. eapply wp_np_delete1; [apply lookup_track0| |].
  { rewrite existsb_leb_range, length_written, length_junk1;
      rewrite ?length_junk1, ?length_fmap; done. }
  cbn [heap trace uninit]. rewrite app_track, length_track.
  apply wp_bind. eapply wp_np_delete2; [apply lookup_track1| |].
  { rewrite existsb_leb_range, length_written, length_junk2;
      rewrite ?length_junk2, ?length_fmap; done. }
  cbn [heap trace uninit]. rewrite app_track, length_track, length_app.
  cbn [length]. rewrite <- app_assoc. cbn [app].
  match goal with
  | |- wp (k _ ?l2) _ _ _ =>
      replace l2 with (S (S (S (length (heap w) + length r)))) by lia
  end.
  exact Hk.
Qed.

(** The first [np.delete] call when an index is rejected. *)
Lemma wp_trim_raise {A} numpy_strict w m c xs r tr a b (k : loc -> M A)
    (Q : A -> world -> Prop) E :
  length xs <= c ->
  numpy_strict && bool_decide (a < b /\ c < b) = true ->
  E IndexError (tracking w m c xs r tr) ->
  wp (bind (np_delete numpy_strict (length (heap w)) (range a b)) k)
     Q E (tracking w m c xs r tr).
Proof.
  intros Hxs Hb Hk. unfold tracking at 1.
  apply wp_bind. eapply wp_np_delete_raise; [apply lookup_track0| |done].
  rewrite existsb_leb_range, length_written, length_junk1;
      rewrite ?length_junk1, ?length_fmap; done.
Qed.

End Tracking.

(** ** Tracking of every step *)

Section TrackAll.
Context {F Eqn Method : Type}.
Variable numpy_strict : bool.
Variable setstep : Eqn -> Method -> F -> F -> list F -> F * list F.
Implicit Types (w : world (F:=F)) (s : F * list F).

Lemma length_orbit step k s : length (orbit step k s) = k.
Proof. unfold orbit. by rewrite length_map, length_seq. Qed.

Lemma orbit_S step k s :
  orbit step (S k) s = orbit step k s ++ [after step k s].
Proof. unfold orbit. by rewrite seq_S, map_app. Qed.

Lemma orbit_lookup step k s i :
  i < k -> orbit step k s !! i = Some (after step i s).
Proof.
  intros Hi. unfold orbit. rewrite list_lookup_fmap, lookup_seq_lt by done.
  done.
Qed.

Lemma after_length step k s :
  (forall t v, length (step t v).2 = length v) ->
  length (after step k s).2 = length s.2.
Proof.
  intros Hstep. revert s. induction k as [|k IH]; intros s; [done|].
  simpl. rewrite IH. apply Hstep.
Qed.

(** When every entry was written nothing of the allocator's is left. *)
Lemma tracking_full w m c xs r tr :
  length xs = c ->
  tracking w m c xs r tr
  = World (heap w ++ Arr1 xs.*1 :: Arr2 m xs.*2 :: r) (trace w ++ tr)
          (uninit w).
Proof.
  intros Hc. unfold tracking.
  by rewrite !written_full by (by rewrite length_fmap, ?length_junk1, ?length_junk2).
Qed.

(** One iteration of the loop, up to the exit test. *)
Lemma wp_track_all_iteration {A} step w t v n j tr (k : M A)
    (Q : A -> world -> Prop) E :
  (forall t v, length (step t v).2 = length v) ->
  j < n ->
  wp k Q E
     (tracking w (length v) (n + 1) (orbit step (S (S j)) (t, v))
        (step_states step (S j) (t, v))
        (tr ++ step_events step 1 (after step j (t, v)))) ->
  wp (bind (getitem (length (heap w)) (1 + j - 1)) (fun ti =>
      bind (getrow (S (length (heap w))) (1 + j - 1)) (fun vi =>
      bind (apply_step step ti vi) (fun '(t', y') =>
      bind (record_sample (length (heap w)) (S (length (heap w))) (1 + j)
              t' y') (fun _ => k)))))
     Q E
     (tracking w (length v) (n + 1) (orbit step (S j) (t, v))
        (step_states step j (t, v)) tr).
Proof.
  intros Hstep Hj HQ. replace (1 + j - 1) with j by lia.
  apply wp_bind. eapply wp_getitem_tracking; [by apply orbit_lookup; lia|].
  apply wp_bind. eapply wp_getrow_tracking; [by apply orbit_lookup; lia|].
  apply wp_bind, wp_apply_step_tracking. cbn [fst snd].
  fold (advance step (after step j (t, v))). rewrite <- after_S_r.
  apply wp_bind. eapply wp_record_snoc.
  - by apply state_at_new.
  - by rewrite after_length.
  - by rewrite length_orbit.
  - lia.
  - rewrite <- surjective_pairing.
    by rewrite <- orbit_S, <- step_states_S_r.
Qed.

(** The setup and a loop over an empty range. *)
Lemma track_all_degenerate step exitcond t y v w :
  heap w !! y = Some (Arr1 v) ->
  track_all numpy_strict step exitcond 0 t y w
  = (Done (Trajectory (length (heap w)) (S (length (heap w)))),
     World (heap w ++ [Arr1 [t]; Arr2 (length v) [v]]) (trace w) (uninit w)).
Proof.
  intros Hy. unfold track_all. apply wp_eq.
  eapply wp_track_setup; [done|lia|].
  rewrite tracking_full by done. rewrite app_nil_r.
  destruct exitcond; apply wp_bind; cbn [range Nat.sub Nat.add seq for_in];
    by repeat apply wp_ret.
Qed.

(** The run that tracks every step, without exit condition. *)
Lemma track_all_run step t y v n w :
  heap w !! y = Some (Arr1 v) ->
  (forall t' v', length (step t' v').2 = length v') ->
  track_all numpy_strict step None n t y w
  = (Done (Trajectory (length (heap w)) (S (length (heap w)))),
     World (heap w ++ Arr1 (orbit step (S n) (t, v)).*1
                   :: Arr2 (length v) (orbit step (S n) (t, v)).*2
                   :: step_states step n (t, v))
           (trace w ++ step_events step n (t, v)) (uninit w)).
Proof.
  intros Hy Hstep. unfold track_all.
  apply wp_eq. eapply wp_track_setup; [done|lia|].
  apply wp_bind. unfold range. replace (n + 1 - 1) with n by lia.
  apply (wp_for_seq (fun j _ _ w' =>
    w' = tracking w (length v) (n + 1) (orbit step (S j) (t, v))
           (step_states step j (t, v)) (step_events step j (t, v)))).
  - intros j io [] w' Hj ->.
    apply wp_track_all_iteration; [done|done|]. apply wp_ret.
    cbn [fst snd]. rewrite <- step_events_add.
    by replace (j + 1) with (S j) by lia.
  - intros io [] w' ->. apply wp_ret. split; [done|].
    apply tracking_full. rewrite length_orbit. lia.
  - done.
Qed.

(** The run that tracks every step, when the exit condition first holds at
    the sample of index [k]: the arrays returned are new arrays, with the
    [k + 1] samples produced and nothing else. *)
Lemma track_all_exit_run step p t y v n k w :
  heap w !! y = Some (Arr1 v) ->
  (forall t' v', length (step t' v').2 = length v') ->
  1 <= k <= n ->
  (forall i, 1 <= i < k ->
     p (after step i (t, v)).1 (after step i (t, v)).2 = false) ->
  p (after step k (t, v)).1 (after step k (t, v)).2 = true ->
  let samples := orbit step (S k) (t, v) in
  track_all numpy_strict step (Some p) n t y w
  = (Done (Trajectory (S (S (length (heap w) + k)))
                      (S (S (S (length (heap w) + k))))),
     tracking w (length v) (n + 1) samples
       (step_states step k (t, v)
          ++ [Arr1 samples.*1; Arr2 (length v) samples.*2])
       (interval_events step 1 k (t, v))).
Proof.
  intros Hy Hstep Hk Hbefore Hfire samples. unfold track_all.
  apply wp_eq. eapply wp_track_setup; [done|lia|].
  apply wp_bind. unfold range at 1. replace (n + 1 - 1) with n by lia.
  apply (wp_for_seq (fun j _ st w' =>
    j < k /\ st = (length (heap w), S (length (heap w))) /\
    w' = tracking w (length v) (n + 1) (orbit step (S j) (t, v))
           (step_states step j (t, v)) (interval_events step 1 j (t, v)))).
  - intros j io [ta ya] w' Hj (Hjk & [= -> ->] & ->).
    apply wp_track_all_iteration; [done|done|].
    assert (Hlast : orbit step (S (S j)) (t, v) !! (1 + j)
                    = Some (after step (S j) (t, v)))
      by (apply orbit_lookup; lia).
    apply wp_bind. eapply wp_getitem_tracking; [exact Hlast|].
    apply wp_bind. eapply wp_getrow_tracking; [exact Hlast|].
    apply wp_bind, wp_apply_exit_tracking.
    assert (Hev : (interval_events step 1 j (t, v)
                     ++ step_events step 1 (after step j (t, v)))
                    ++ [EvExit (after step (S j) (t, v)).1
                               (after step (S j) (t, v)).2]
                  = interval_events step 1 (S j) (t, v)).
    { rewrite interval_events_S_r, <- app_assoc.
      by rewrite !Nat.mul_1_r. }
    rewrite Hev. clear Hev.
    destruct (decide (S j = k)) as [<-|Hne].
    + rewrite Hfire.
      eapply wp_trim; [by rewrite length_orbit; lia| |].
      { apply andb_false_intro2, bool_decide_eq_false. lia. }
      cbn zeta. apply wp_ret. cbn [fst snd]. apply wp_ret.
      rewrite length_step_states.
      rewrite !trim_written;
        rewrite ?length_fmap, ?length_orbit, ?length_junk1, ?length_junk2;
        try lia.
      done.
    + rewrite Hbefore by lia. apply wp_ret. cbn [fst snd].
      repeat split; try done. lia.
  - intros io st w' (Hlt & _). lia.
  - repeat split; try done. lia.
Qed.

(** C6.  With [trackint = 1] and no exit condition, a run with [nmax = n]
    returns two fresh arrays of exactly [n + 1] entries, the times and the
    states of the samples [s], [advance s], ..., the advance operation
    applied [n] times to [s], where [s] is the initial sample: entry 0 is
    the initial sample and entry [i] the advance operation applied [i]
    times.  The advance operation is assumed to return states of the
    length it was given. *)
Theorem track_all_trajectory fn f h method t y v n w :
  heap w !! y = Some (Arr1 v) ->
  (forall t' v', length (setstep f method h t' v').2 = length v') ->
  let step := setstep f method h in
  let samples := orbit step (S n) (t, v) in
  iterator numpy_strict setstep fn f h method t (Some y) (Some n) None
    (TInt 1) w
  = (Done (Trajectory (length (heap w)) (S (length (heap w)))),
     World (heap w ++ Arr1 samples.*1 :: Arr2 (length v) samples.*2
                   :: step_states step n (t, v))
           (trace w ++ step_events step n (t, v)) (uninit w))
  /\ length samples = n + 1
  /\ forall i, i <= n -> samples !! i = Some (after step i (t, v)).
Proof.
  intros Hy Hstep step samples. split; [|split].
  - by apply track_all_run.
  - subst samples. rewrite length_orbit. lia.
  - intros i Hi. apply orbit_lookup. lia.
Qed.

End TrackAll.

(** ** Tracking of every [N]-th step *)

Section TrackInterval.
Context {F Eqn Method : Type}.
Variable numpy_strict : bool.
Variable setstep : Eqn -> Method -> F -> F -> list F -> F * list F.
Implicit Types (w : world (F:=F)) (s : F * list F).
Implicit Types (E : exn -> world (F:=F) -> Prop).

Lemma ntrack_of_nat n N :
  0 < N -> ntrack_of n (Z.of_nat N) = Z.of_nat (1 + intervals n N).
Proof.
  intros HN. unfold ntrack_of, intervals.
  rewrite Nat2Z.inj_add, Nat2Z.inj_div. f_equal. f_equal. lia.
Qed.

Lemma intervals_bounds n N :
  0 < N -> intervals n N * N < n + N /\ n <= intervals n N * N.
Proof.
  intros HN. unfold intervals.
  pose proof (Nat.div_mod (n + N - 1) N ltac:(lia)) as Hdm.
  pose proof (Nat.mod_upper_bound (n + N - 1) N ltac:(lia)) as Hm.
  nia.
Qed.

Lemma tail_steps_nat n N :
  0 < N ->
  Z.to_nat (tail_steps n (Z.of_nat N)) = n + N - intervals n N * N.
Proof.
  intros HN. unfold tail_steps. rewrite ntrack_of_nat by done.
  pose proof (intervals_bounds n N HN). nia.
Qed.

Lemma length_tracked step N k s : length (tracked step N k s) = k.
Proof. unfold tracked. by rewrite length_map, length_seq. Qed.

Lemma tracked_S step N k s :
  tracked step N (S k) s = tracked step N k s ++ [after step (k * N) s].
Proof. unfold tracked. by rewrite seq_S, map_app. Qed.

Lemma tracked_lookup step N k s i :
  i < k -> tracked step N k s !! i = Some (after step (i * N) s).
Proof.
  intros Hi. unfold tracked. by rewrite list_lookup_fmap, lookup_seq_lt.
Qed.

(** One iteration of the main loop: [N] sub-steps, then the sample is
    recorded at the next index. *)
Lemma wp_interval_iteration {A} step w m c N j t v y' tr
    (k : F -> loc -> M A) (Q : A -> world -> Prop) E :
  (forall t v, length (step t v).2 = length v) ->
  m = length v ->
  state_at w (step_states step (j * N) (t, v)) y'
    (after step (j * N) (t, v)).2 ->
  S j < c ->
  (forall y'',
     state_at w (step_states step (S j * N) (t, v)) y''
       (after step (S j * N) (t, v)).2 ->
     wp (k (after step (S j * N) (t, v)).1 y'') Q E
        (tracking w m c (tracked step N (S (S j)) (t, v))
           (step_states step (S j * N) (t, v))
           (tr ++ step_events step N (after step (j * N) (t, v))))) ->
  wp (bind (take_steps step N (after step (j * N) (t, v)).1 y')
        (fun '(t', y'') =>
           bind (record_sample (length (heap w)) (S (length (heap w)))
                   (1 + j) t' y'')
                (fun _ => k t' y'')))
     Q E
     (tracking w m c (tracked step N (S j) (t, v))
        (step_states step (j * N) (t, v)) tr).
Proof.
  intros Hstep -> Hy Hc Hk.
  apply wp_bind. eapply wp_take_steps_tracking; [exact Hy|].
  rewrite <- surjective_pairing, <- after_add, <- step_states_add.
  replace (j * N + N) with (S j * N) by lia.
  apply wp_bind. eapply wp_record_snoc.
  - eapply state_at_steps in Hy.
    rewrite <- surjective_pairing, <- after_add, <- step_states_add in Hy.
    replace (j * N + N) with (S j * N) in Hy by lia. exact Hy.
  - by rewrite after_length.
  - by rewrite length_tracked.
  - lia.
  - rewrite <- surjective_pairing, <- tracked_S. apply Hk.
    eapply state_at_steps in Hy.
    rewrite <- surjective_pairing, <- after_add, <- step_states_add in Hy.
    replace (j * N + N) with (S j * N) in Hy by lia. exact Hy.
Qed.

(** The trailing computation, after [j] iterations of the main loop: the
    remaining sub-steps are taken and the sample is recorded at the index
    the loop variable was left at, over the sample recorded last; when the
    loop body never ran the variable is unbound. *)
Lemma wp_final_tracked step w m c n N j y' t v tr io
    (Q : unit -> world -> Prop) E :
  (forall t v, length (step t v).2 = length v) ->
  m = length v ->
  0 < N ->
  state_at w (step_states step (j * N) (t, v)) y'
    (after step (j * N) (t, v)).2 ->
  let tail := n + N - intervals n N * N in
  match io with
  | None =>
      E UnboundLocalError
        (tracking w m c (tracked step N (S j) (t, v))
           (step_states step (j * N + tail) (t, v))
           (tr ++ step_events step tail (after step (j * N) (t, v))))
  | Some i =>
      i = j /\ 0 < j /\
      Q tt (tracking w m c
              (tracked step N j (t, v) ++ [after step (j * N + tail) (t, v)])
              (step_states step (j * N + tail) (t, v))
              (tr ++ step_events step tail (after step (j * N) (t, v))))
  end ->
  wp (final_tracked step n (Z.of_nat N) (length (heap w))
        (S (length (heap w))) io (after step (j * N) (t, v)).1 y')
     Q E
     (tracking w m c (tracked step N (S j) (t, v))
        (step_states step (j * N) (t, v)) tr).
Proof.
  intros Hstep -> HN Hy tail Hio. unfold final_tracked.
  rewrite tail_steps_nat by done. fold tail.
  apply wp_bind. eapply wp_take_steps_tracking; [exact Hy|].
  eapply state_at_steps in Hy.
  rewrite <- surjective_pairing, <- after_add, <- step_states_add in Hy |- *.
  apply wp_bind. destruct io as [i|].
  - destruct Hio as (-> & Hj & HQ). apply wp_local.
    rewrite tracked_S. eapply wp_record_again.
    + exact Hy.
    + by rewrite after_length.
    + by rewrite length_tracked.
    + by rewrite <- surjective_pairing.
  - by apply wp_raise.
Qed.

(** The dispatch on an integer interval above one. *)
Lemma iterator_interval fn f h method t y n exitcond N :
  1 < N ->
  iterator numpy_strict setstep fn f h method t (Some y) (Some n) exitcond
    (TInt (Z.of_nat N))
  = track_interval numpy_strict (setstep f method h) exitcond n (Z.of_nat N)
      t y.
Proof.
  intros HN. unfold iterator. cbn [default from_option id].
  destruct (Z.eqb_spec (Z.of_nat N) 1) as [|_]; [lia|].
  destruct (Z.ltb_spec 1 (Z.of_nat N)) as [_|]; [done|lia].
Qed.

Lemma capacity_nat n N :
  0 < N -> Z.to_nat (ntrack_of n (Z.of_nat N) + 1) = S (S (intervals n N)).
Proof. intros HN. rewrite ntrack_of_nat by done. lia. Qed.

(** The run that tracks every [N]-th step, without exit condition: the
    main loop runs [intervals n N] times, the trailing computation adds
    its sub-steps and records over the sample the loop recorded last; one
    entry of each array is never written. *)
Lemma track_interval_run step t y v n N w :
  heap w !! y = Some (Arr1 v) ->
  (forall t' v', length (step t' v').2 = length v') ->
  1 < N ->
  let K := intervals n N in
  track_interval numpy_strict step None n (Z.of_nat N) t y w
  = (match n with
     | 0 => Raise UnboundLocalError
     | S _ => Done (Trajectory (length (heap w)) (S (length (heap w))))
     end,
     tracking w (length v) (S (S K))
       (match n with
        | 0 => [(t, v)]
        | S _ => tracked step N K (t, v) ++ [after step (n + N) (t, v)]
        end)
       (step_states step (n + N) (t, v))
       (step_events step (n + N) (t, v))).
Proof.
  intros Hy Hstep HN K.
  pose proof (intervals_bounds n N ltac:(lia)) as [HK1 HK2]. fold K in HK1, HK2.
  apply (wp_post _ (fun rw => rw = _)).
  unfold track_interval. rewrite capacity_nat by lia. fold K.
  eapply wp_track_setup; [done|lia|].
  apply wp_bind. rewrite ntrack_of_nat by lia. fold K.
  unfold range. rewrite !Nat2Z.id.
  replace (1 + K - 1) with K by lia.
  apply (wp_for_seq (fun j io st w' =>
    io = match j with 0 => None | S _ => Some j end /\
    st.1 = (after step (j * N) (t, v)).1 /\
    state_at w (step_states step (j * N) (t, v)) st.2
      (after step (j * N) (t, v)).2 /\
    w' = tracking w (length v) (S (S K)) (tracked step N (S j) (t, v))
           (step_states step (j * N) (t, v))
           (step_events step (j * N) (t, v)))).
  - intros j io [t' y'] w' Hj (Hio & Ht & Hst & ->).
    cbn [fst snd] in *. subst t'.
    eapply wp_interval_iteration; [done|done|done|lia|].
    intros y'' Hy''. apply wp_ret. cbn [fst snd].
    repeat split; try done.
    rewrite <- step_events_add. by replace (j * N + N) with (S j * N) by lia.
  - intros io [t' y'] w' (Hio & Ht & Hst & ->).
    cbn [fst snd] in *. subst t'.
    apply wp_bind. eapply wp_final_tracked; [done|done|lia|done|].
    fold K. rewrite <- step_events_add.
    replace (K * N + (n + N - K * N)) with (n + N) by lia.
    subst io. destruct n as [|n'].
    + assert (K = 0) as -> by (unfold K, intervals; apply Nat.div_small; lia).
      done.
    + assert (0 < K) by (destruct K; [lia|lia]).
      destruct K as [|K'] eqn:HKeq; [lia|].
      split; [done|]. split; [lia|]. by apply wp_ret.
  - cbn [fst snd]. repeat split; try done. by apply state_at_old.
Qed.

(** With [nmax = 0] the main loop is empty, with or without exit
    condition, and its variable unbound when the trailing computation
    reads it. *)
Lemma track_interval_degenerate step exitcond t y v N w :
  heap w !! y = Some (Arr1 v) ->
  (forall t' v', length (step t' v').2 = length v') ->
  1 < N ->
  track_interval numpy_strict step exitcond 0 (Z.of_nat N) t y w
  = (Raise UnboundLocalError,
     tracking w (length v) 2 [(t, v)] (step_states step N (t, v))
       (step_events step N (t, v))).
Proof.
  intros Hy Hstep HN.
  assert (HK : intervals 0 N = 0)
    by (unfold intervals; apply Nat.div_small; lia).
  set (final := (Raise (A:=result) UnboundLocalError,
                 tracking w (length v) 2 [(t, v)]
                   (step_states step N (t, v)) (step_events step N (t, v)))).
  apply (wp_post _ (fun rw => rw = final)).
  unfold track_interval. rewrite capacity_nat, HK by lia.
  eapply wp_track_setup; [done|lia|].
  assert (Hfinal : forall k,
    wp (bind (final_tracked step 0 (Z.of_nat N) (length (heap w))
                (S (length (heap w))) None t y) k)
       (fun a w' => (Done a, w') = final) (fun e w' => (Raise e, w') = final)
       (tracking w (length v) 2 [(t, v)] [] [])).
  { intros k. apply wp_bind.
    change (wp (final_tracked step 0 (Z.of_nat N) (length (heap w))
                  (S (length (heap w))) None
                  (after step (0 * N) (t, v)).1 y)
              (fun a => wp (k a) (fun a w' => (Done a, w') = final)
                           (fun e w' => (Raise e, w') = final))
              (fun e w' => (Raise e, w') = final)
              (tracking w (length v) 2 (tracked step N 1 (t, v))
                 (step_states step (0 * N) (t, v)) [])).
    eapply wp_final_tracked; [done|done|lia|by apply state_at_old|].
    rewrite HK. cbn [Nat.mul Nat.add app after].
    by rewrite Nat.sub_0_r. }
  rewrite ntrack_of_nat, HK by lia.
  destruct exitcond; apply wp_bind;
    cbn [range Nat.sub Nat.add seq for_in Z.to_nat Z.of_nat Pos.to_nat
         Pos.iter_op]; apply wp_ret; apply Hfinal.
Qed.

(** The time array such a run returns, for [n >= 1]. *)
Lemma track_interval_times step t y v n N w :
  heap w !! y = Some (Arr1 v) ->
  (forall t' v', length (step t' v').2 = length v') ->
  1 <= n ->
  1 < N ->
  let K := intervals n N in
  let l := length (heap w) in
  let samples := tracked step N K (t, v) ++ [after step (n + N) (t, v)] in
  let run := track_interval numpy_strict step None n (Z.of_nat N) t y w in
  run.1 = Done (Trajectory l (S l)) /\
  heap run.2 !! l = Some (Arr1 (samples.*1 ++ [uninit w l (K + 1)])) /\
  trace run.2 = trace w ++ step_events step (n + N) (t, v).
Proof.
  intros Hy Hstep Hn HN K l samples run. subst run l.
  rewrite (track_interval_run _ _ _ v) by done.
  destruct n as [|n']; [lia|]. fold K. fold samples.
  cbn [fst snd tracking heap trace].
  split; [done|]. split; [|done].
  rewrite lookup_track0. do 2 f_equal.
  rewrite (written_but_last _ _ (uninit w 0 0)).
  - unfold junk1. rewrite last_map_seq. cbn [default from_option id].
    by replace (K + 1) with (S K) by lia.
  - subst samples.
    rewrite length_fmap, length_app, length_tracked, length_junk1.
    simpl. lia.
Qed.

(** C1.  What the every-[N] mode without exit condition does for
    [nmax = n >= 1]: the arrays are allocated with [intervals n N + 2]
    entries, one more than the initial sample and one sample for each
    interval; the main loop records [intervals n N] samples, [N] steps
    apart; the trailing computation then takes its sub-steps on top of
    these and records over the last sample.  So the advance operation is
    called [n + N] times, not [n]; the last recorded sample is the
    advance operation applied [n + N] times; and the last entry of each
    array is what the allocator left there. *)
Theorem interval_overshoots fn f h method t y v n N w :
  heap w !! y = Some (Arr1 v) ->
  (forall t' v', length (setstep f method h t' v').2 = length v') ->
  1 <= n ->
  1 < N ->
  let step := setstep f method h in
  let K := intervals n N in
  let lt := length (heap w) in
  let samples := tracked step N K (t, v) ++ [after step (n + N) (t, v)] in
  let run :=
    iterator numpy_strict setstep fn f h method t (Some y) (Some n) None
      (TInt (Z.of_nat N)) w in
  run.1 = Done (Trajectory lt (S lt)) /\
  heap run.2 !! lt = Some (Arr1 (samples.*1 ++ [uninit w lt (K + 1)])) /\
  (exists row, heap run.2 !! S lt
               = Some (Arr2 (length v) (samples.*2 ++ [row]))) /\
  length samples = K + 1 /\
  trace run.2 = trace w ++ step_events step (n + N) (t, v) /\
  step_calls (trace run.2) = step_calls (trace w) + (n + N).
Proof.
  intros Hy Hstep Hn HN. cbv zeta.
  rewrite iterator_interval by done.
  destruct (track_interval_times (setstep f method h) t y v n N w
              Hy Hstep Hn HN) as (Hres & Htimes & Htrace).
  split; [done|]. split; [done|]. split; [|split; [|split; [done|]]].
  - rewrite (track_interval_run _ _ _ v) by done.
    destruct n as [|n']; [lia|].
    cbn [fst snd tracking heap trace].
    rewrite lookup_track1. eexists. do 2 f_equal.
    apply (written_but_last _ _ []).
    rewrite length_fmap, length_app, length_tracked, length_junk2.
    simpl. lia.
  - rewrite length_app, length_tracked. done.
  - by rewrite Htrace, step_calls_app, step_calls_step_events.
Qed.

(** C8.  Whether two runs on the same arguments return the same depends
    on the mode.  Let the two runs start in worlds with the same objects
    that differ in what the allocator hands to [np.empty].  Without
    tracking, and when every step is tracked, the outcome and every
    object are the same (here without exit condition).  In the every-[N]
    mode the returned time arrays end with an entry that was never
    written: they are equal only if the allocator left the same number
    there. *)
Theorem reproducible_up_to_uninitialised fn f h method t y v n N w1 w2 :
  heap w1 = heap w2 ->
  heap w1 !! y = Some (Arr1 v) ->
  (forall t' v', length (setstep f method h t' v').2 = length v') ->
  1 <= n ->
  1 < N ->
  let run trackint w :=
    iterator numpy_strict setstep fn f h method t (Some y) (Some n) None
      trackint w in
  let l := length (heap w1) in
  ((run TNone w1).1 = (run TNone w2).1 /\
   heap (run TNone w1).2 = heap (run TNone w2).2) /\
  ((run (TInt 1) w1).1 = (run (TInt 1) w2).1 /\
   heap (run (TInt 1) w1).2 = heap (run (TInt 1) w2).2) /\
  ((run (TInt (Z.of_nat N)) w1).1 = Done (Trajectory l (S l)) /\
   (run (TInt (Z.of_nat N)) w2).1 = Done (Trajectory l (S l)) /\
   (heap (run (TInt (Z.of_nat N)) w1).2 !! l
    = heap (run (TInt (Z.of_nat N)) w2).2 !! l <->
    uninit w1 l (intervals n N + 1) = uninit w2 l (intervals n N + 1))).
Proof.
  intros Hheap Hy1 Hstep Hn HN run l. subst run l.
  assert (Hy2 : heap w2 !! y = Some (Arr1 v)) by by rewrite <- Hheap.
  split; [|split].
  - rewrite !(no_tracking_run _ _ _ _ _ _ _ _ v) by done.
    cbn [fst snd heap]. by rewrite Hheap.
  - unfold iterator. cbn [default from_option id Z.eqb Pos.eqb].
    rewrite !(track_all_run _ _ _ _ v) by done.
    cbn [fst snd heap]. by rewrite Hheap.
  - rewrite !iterator_interval by done.
    destruct (track_interval_times (setstep f method h) t y v n N w1
                Hy1 Hstep Hn HN) as (H1 & -> & _).
    destruct (track_interval_times (setstep f method h) t y v n N w2
                Hy2 Hstep Hn HN) as (H2 & Ht2 & _).
    rewrite <- Hheap in H2, Ht2. rewrite Ht2.
    split; [done|]. split; [done|]. split.
    + intros [= Heq]. by apply app_inv_head in Heq as [= ->].
    + by intros ->.
Qed.

(** C3.  With [nmax = 0] the run returns the initial sample when
    tracking is disabled (the caller's array itself) and when every step
    is tracked (arrays of one entry), without a call of the advance
    operation.  In the every-[N] mode it does not: the trailing
    computation makes [N] calls of the advance operation and then reads
    the variable of the main loop, which never ran, so that the run ends
    with [UnboundLocalError] and returns nothing. *)
Theorem degenerate_run fn f h method t y v exitcond N w :
  heap w !! y = Some (Arr1 v) ->
  (forall t' v', length (setstep f method h t' v').2 = length v') ->
  1 < N ->
  let step := setstep f method h in
  let run :=
    iterator numpy_strict setstep fn f h method t (Some y) (Some 0) exitcond
    in
  run TNone w = (Done (FinalState t y), w) /\
  run (TInt 1) w
  = (Done (Trajectory (length (heap w)) (S (length (heap w)))),
     World (heap w ++ [Arr1 [t]; Arr2 (length v) [v]]) (trace w) (uninit w)) /\
  (run (TInt (Z.of_nat N)) w).1 = Raise UnboundLocalError /\
  trace (run (TInt (Z.of_nat N)) w).2 = trace w ++ step_events step N (t, v).
Proof.
  intros Hy Hstep HN step run. subst run. split; [|split].
  - unfold iterator. cbn [default from_option id].
    destruct exitcond; by destruct w.
  - unfold iterator. cbn [default from_option id Z.eqb Pos.eqb].
    by apply track_all_degenerate.
  - rewrite iterator_interval by done.
    by rewrite (track_interval_degenerate _ _ _ _ v).
Qed.

(** The run with an exit condition that first holds at the tracked
    sample [k]: the main loop is left there, and the arrays go through
    [np.delete] with the range [range(k+1, n+1)], which is made for arrays
    of [n + 1] entries, not for the [intervals n N + 2] entries there
    are. *)
Lemma track_interval_exit_run step p t y v n N k w :
  heap w !! y = Some (Arr1 v) ->
  (forall t' v', length (step t' v').2 = length v') ->
  1 < N ->
  1 <= k <= n ->
  k <= 1 + intervals n N ->
  (forall i, 1 <= i < k ->
     p (after step (i * N) (t, v)).1 (after step (i * N) (t, v)).2 = false) ->
  p (after step (k * N) (t, v)).1 (after step (k * N) (t, v)).2 = true ->
  let K := intervals n N in
  let l := length (heap w) in
  let xs := tracked step N (S k) (t, v) in
  track_interval numpy_strict step (Some p) n (Z.of_nat N) t y w
  = if numpy_strict && bool_decide (k < n /\ 1 + K < n)
    then (Raise IndexError,
          tracking w (length v) (S (S K)) xs (step_states step (k * N) (t, v))
            (interval_events step N k (t, v)))
    else (Done (Trajectory (S (S (l + k * N))) (S (S (S (l + k * N))))),
          tracking w (length v) (S (S K)) xs
            (step_states step (k * N) (t, v)
               ++ [Arr1 (xs.*1 ++ drop (n + 1) (junk1 w l (S (S K))));
                   Arr2 (length v)
                     (xs.*2
                        ++ drop (n + 1) (junk2 w (S l) (S (S K)) (length v)))])
            (interval_events step N k (t, v))).
Proof.
  intros Hy Hstep HN Hk Hcap Hbefore Hfire K l xs. subst l xs.
  apply (wp_post _ (fun rw => rw = _)).
  unfold track_interval. rewrite capacity_nat by lia. fold K.
  eapply wp_track_setup; [done|lia|].
  apply wp_bind. change (range 1 (n + 1)) with (seq 1 (n + 1 - 1)).
  replace (n + 1 - 1) with n by lia. rewrite Nat2Z.id.
  apply (wp_for_seq (fun j io st w' =>
    j < k /\
    st.1.1.1 = (after step (j * N) (t, v)).1 /\
    st.1.2 = length (heap w) /\ st.2 = S (length (heap w)) /\
    state_at w (step_states step (j * N) (t, v)) st.1.1.2
      (after step (j * N) (t, v)).2 /\
    w' = tracking w (length v) (S (S K)) (tracked step N (S j) (t, v))
           (step_states step (j * N) (t, v))
           (interval_events step N j (t, v)))).
  - intros j io [[[t' y'] ta] ya] w' Hj (Hjk & Ht & Hta & Hya & Hst & ->).
    cbn [fst snd] in *. subst t' ta ya.
    eapply wp_interval_iteration; [done|done|done|lia|].
    intros y'' Hy''.
    assert (Hlast : tracked step N (S (S j)) (t, v) !! (1 + j)
                    = Some (after step (S j * N) (t, v)))
      by (apply tracked_lookup; lia).
    apply wp_bind. eapply wp_getitem_tracking; [exact Hlast|].
    apply wp_bind. eapply wp_getrow_tracking; [exact Hlast|].
    apply wp_bind, wp_apply_exit_tracking.
    rewrite <- app_assoc, <- interval_events_S_r.
    destruct (decide (S j = k)) as [Heq|Hne].
    + subst k. rewrite Hfire.
      destruct (numpy_strict && bool_decide (S j < n /\ 1 + K < n)) eqn:Hb.
      * eapply wp_trim_raise; [by rewrite length_tracked; lia| |done].
        rewrite <- Hb. f_equal. apply bool_decide_ext. lia.
      * eapply wp_trim; [by rewrite length_tracked; lia| |].
        { rewrite <- Hb. f_equal. apply bool_decide_ext. lia. }
        cbn zeta. apply wp_ret. cbn [fst snd]. apply wp_ret.
        rewrite length_step_states.
        rewrite !trim_written_drop;
          rewrite ?length_fmap, ?length_tracked; try lia.
        done.
    + rewrite Hbefore by lia. apply wp_ret. cbn [fst snd].
      repeat split; try done. lia.
  - intros io st w' (Hlt & _). lia.
  - cbn [fst snd]. repeat split; try done; try lia.
    by apply state_at_old.
Qed.

(** The run with an exit condition that never holds, when the arrays have
    room for the [n] samples of the main loop: the trailing computation
    follows. *)
Lemma track_interval_exhausted_run step p t y v n N w :
  heap w !! y = Some (Arr1 v) ->
  (forall t' v', length (step t' v').2 = length v') ->
  1 < N ->
  n <= 1 + intervals n N ->
  (forall i, 1 <= i <= n ->
     p (after step (i * N) (t, v)).1 (after step (i * N) (t, v)).2 = false) ->
  let K := intervals n N in
  let tail := n + N - K * N in
  track_interval numpy_strict step (Some p) n (Z.of_nat N) t y w
  = (match n with
     | 0 => Raise UnboundLocalError
     | S _ => Done (Trajectory (length (heap w)) (S (length (heap w))))
     end,
     tracking w (length v) (S (S K))
       (match n with
        | 0 => [(t, v)]
        | S _ => tracked step N n (t, v)
                   ++ [after step (n * N + tail) (t, v)]
        end)
       (step_states step (n * N + tail) (t, v))
       (interval_events step N n (t, v)
          ++ step_events step tail (after step (n * N) (t, v)))).
Proof.
  intros Hy Hstep HN Hcap Hnever K tail.
  apply (wp_post _ (fun rw => rw = _)).
  unfold track_interval. rewrite capacity_nat by lia. fold K.
  eapply wp_track_setup; [done|lia|].
  apply wp_bind. change (range 1 (n + 1)) with (seq 1 (n + 1 - 1)).
  replace (n + 1 - 1) with n by lia. rewrite Nat2Z.id.
  apply (wp_for_seq (fun j io st w' =>
    io = match j with 0 => None | S _ => Some j end /\
    st.1.1.1 = (after step (j * N) (t, v)).1 /\
    st.1.2 = length (heap w) /\ st.2 = S (length (heap w)) /\
    state_at w (step_states step (j * N) (t, v)) st.1.1.2
      (after step (j * N) (t, v)).2 /\
    w' = tracking w (length v) (S (S K)) (tracked step N (S j) (t, v))
           (step_states step (j * N) (t, v))
           (interval_events step N j (t, v)))).
  - intros j io [[[t' y'] ta] ya] w' Hj (Hio & Ht & Hta & Hya & Hst & ->).
    cbn [fst snd] in *. subst t' ta ya.
    eapply wp_interval_iteration; [done|done|done|lia|].
    intros y'' Hy''.
    assert (Hlast : tracked step N (S (S j)) (t, v) !! (1 + j)
                    = Some (after step (S j * N) (t, v)))
      by (apply tracked_lookup; lia).
    apply wp_bind. eapply wp_getitem_tracking; [exact Hlast|].
    apply wp_bind. eapply wp_getrow_tracking; [exact Hlast|].
    apply wp_bind, wp_apply_exit_tracking.
    rewrite <- app_assoc, <- interval_events_S_r.
    rewrite Hnever by lia.
    apply wp_ret. cbn [fst snd]. repeat split; done.
  - intros io [[[t' y'] ta] ya] w' (Hio & Ht & Hta & Hya & Hst & ->).
    cbn [fst snd] in *. subst t' ta ya.
    apply wp_bind. eapply wp_final_tracked; [done|done|lia|done|].
    fold K tail. subst io. destruct n as [|n'].
    + done.
    + split; [done|]. split; [lia|]. by apply wp_ret.
  - cbn [fst snd]. repeat split; try done.
    by apply state_at_old.
Qed.

(** C2.  When the exit condition first holds at the tracked sample [k]:
    with [trackint = 1] the arrays returned are new arrays with exactly the
    [k + 1] samples produced.  With [trackint = N > 1] they are not
    always: the range given to [np.delete], [range(k+1, n+1)], fits arrays
    of [n + 1] entries, and the arrays have [intervals n N + 2].  When
    NumPy accepts the range, what is returned is the [k + 1] samples
    followed by the entries of index above [n]: for [n = 1] one entry
    that was never written is left and the arrays have [k + 2] entries.
    Under [numpy_strict] the range is rejected as soon as it goes beyond
    the arrays, and the run ends with [IndexError]. *)
Theorem exit_truncation fn f h method t y v n N k p w :
  heap w !! y = Some (Arr1 v) ->
  (forall t' v', length (setstep f method h t' v').2 = length v') ->
  1 < N ->
  1 <= k <= n ->
  let step := setstep f method h in
  let l := length (heap w) in
  let run trackint :=
    iterator numpy_strict setstep fn f h method t (Some y) (Some n) (Some p)
      trackint w in
  ((forall i, 1 <= i < k ->
      p (after step i (t, v)).1 (after step i (t, v)).2 = false) ->
   p (after step k (t, v)).1 (after step k (t, v)).2 = true ->
   let samples := orbit step (S k) (t, v) in
   (run (TInt 1)).1 = Done (Trajectory (S (S (l + k))) (S (S (S (l + k))))) /\
   heap (run (TInt 1)).2 !! S (S (l + k)) = Some (Arr1 samples.*1) /\
   heap (run (TInt 1)).2 !! S (S (S (l + k)))
   = Some (Arr2 (length v) samples.*2) /\
   length samples = k + 1) /\
  (k <= 1 + intervals n N ->
   (forall i, 1 <= i < k ->
      p (after step (i * N) (t, v)).1 (after step (i * N) (t, v)).2 = false) ->
   p (after step (k * N) (t, v)).1 (after step (k * N) (t, v)).2 = true ->
   let samples := tracked step N (S k) (t, v) in
   let rest := drop (n + 1) (junk1 w l (intervals n N + 2)) in
   if numpy_strict && bool_decide (k < n /\ 1 + intervals n N < n)
   then (run (TInt (Z.of_nat N))).1 = Raise IndexError
   else
     (run (TInt (Z.of_nat N))).1
     = Done (Trajectory (S (S (l + k * N))) (S (S (S (l + k * N))))) /\
     heap (run (TInt (Z.of_nat N))).2 !! S (S (l + k * N))
     = Some (Arr1 (samples.*1 ++ rest)) /\
     length (samples.*1 ++ rest) = k + 1 + (if decide (n = 1) then 1 else 0)).
Proof.
  intros Hy Hstep HN Hk step l run. subst run l. split.
  - intros Hbefore Hfire samples.
    unfold iterator. cbn [default from_option id Z.eqb Pos.eqb].
    rewrite (track_all_exit_run _ _ _ _ _ v n k) by done.
    fold step samples. cbn [fst snd tracking heap].
    split; [done|]. split; [|split].
    + apply lookup_track_trim0, length_step_states.
    + apply lookup_track_trim1, length_step_states.
    + subst samples. rewrite length_orbit. lia.
  - intros Hcap Hbefore Hfire samples rest.
    rewrite iterator_interval by done.
    rewrite (track_interval_exit_run _ _ _ _ v _ _ k) by done.
    fold step samples. subst rest.
    replace (intervals n N + 2) with (S (S (intervals n N))) by lia.
    destruct (numpy_strict && _); [done|].
    cbn [fst snd tracking heap]. split; [done|]. split.
    + apply lookup_track_trim0, length_step_states.
    + pose proof (intervals_bounds n N ltac:(lia)) as [HK1 HK2].
      subst samples.
      rewrite length_app, length_fmap, length_tracked, length_drop,
        length_junk1.
      destruct (decide (n = 1)) as [->|Hn1].
      * assert (intervals 1 N = 1) as ->; [|lia].
        unfold intervals. replace (1 + N - 1) with (1 * N) by lia.
        apply Nat.div_mul. lia.
      * assert (intervals n N < n); [|lia].
        destruct (decide (intervals n N < n)); [done|]. nia.
Qed.

End TrackInterval.

Lemma demo_step_length t v : length (Demo.step t v).2 = length v.
Proof. unfold Demo.step. simpl. by rewrite length_map. Qed.

(** ** What a run leaves untouched *)

Section Frame.
Context {F : Type}.
Variable numpy_strict : bool.
Implicit Types (w : world (F:=F)).

Lemma appends_ret {A} (a : A) : appends (ret (F:=F) a).
Proof. intros w. exists []. by rewrite app_nil_r. Qed.

Lemma appends_raise {A} e : appends (raise (F:=F) (A:=A) e).
Proof. intros w. exists []. by rewrite app_nil_r. Qed.

Lemma appends_bind {A B} (m : M (F:=F) A) (k : A -> M (F:=F) B) :
  appends m -> (forall a, appends (k a)) -> appends (bind m k).
Proof.
  intros Hm Hk w. unfold bind. destruct (Hm w) as [ext1 H1].
  destruct (m w) as [[a|e] w1]; cbn [snd] in *.
  - destruct (Hk a w1) as [ext2 H2]. exists (ext1 ++ ext2).
    by rewrite H2, H1, app_assoc.
  - by exists ext1.
Qed.

Lemma appends_for_in {St} xs (body : nat -> St -> M (F:=F) (flow * St)) i0 s :
  (forall i s, appends (body i s)) -> appends (for_in xs body i0 s).
Proof.
  intros Hbody. revert i0 s. induction xs as [|i xs IH]; intros i0 s.
  - apply appends_ret.
  - cbn [for_in]. apply appends_bind; [done|].
    intros [[] s']; [apply IH | apply appends_ret].
Qed.

Lemma appends_alloc a : appends (alloc (F:=F) a).
Proof. intros w. by exists [a]. Qed.

Lemma appends_log e : appends (log (F:=F) e).
Proof. intros w. exists []. by rewrite app_nil_r. Qed.

Lemma appends_load l : appends (load (F:=F) l).
Proof.
  intros w. exists []. unfold load. rewrite app_nil_r.
  by destruct (heap w !! l).
Qed.

Lemma appends_contents l : appends (contents (F:=F) l).
Proof.
  apply appends_bind; [apply appends_load|].
  intros []; [apply appends_ret | apply appends_raise].
Qed.

Lemma appends_getitem l i : appends (getitem (F:=F) l i).
Proof.
  apply appends_bind; [apply appends_load|].
  intros [T|]; [|apply appends_raise].
  destruct (T !! i); [apply appends_ret | apply appends_raise].
Qed.

Lemma appends_getrow l i : appends (getrow (F:=F) l i).
Proof.
  apply appends_bind; [apply appends_load|].
  intros [|c Y]; [apply appends_raise|].
  destruct (Y !! i); [apply appends_ret | apply appends_raise].
Qed.

Lemma appends_apply_step step t v : appends (apply_step (F:=F) step t v).
Proof.
  unfold apply_step. apply appends_bind; [apply appends_log|]. intros _.
  destruct (step t v). apply appends_bind; [apply appends_alloc|].
  intros ?. apply appends_ret.
Qed.

Lemma appends_call_step step t y : appends (call_step (F:=F) step t y).
Proof.
  apply appends_bind; [apply appends_contents|]. intros v.
  apply appends_apply_step.
Qed.

Lemma appends_apply_exit p t v : appends (apply_exit (F:=F) p t v).
Proof.
  apply appends_bind; [apply appends_log|]. intros _. apply appends_ret.
Qed.

Lemma appends_call_exit p t y : appends (call_exit (F:=F) p t y).
Proof.
  apply appends_bind; [apply appends_contents|]. intros v.
  apply appends_apply_exit.
Qed.

Lemma appends_take_steps step k t y : appends (take_steps (F:=F) step k t y).
Proof.
  apply appends_bind.
  - apply appends_for_in. intros i [t' y'].
    apply appends_bind; [apply appends_call_step|]. intros ?. apply appends_ret.
  - intros [[? ?] ?]. apply appends_ret.
Qed.

Lemma appends_no_tracking step exitcond nmax t y :
  appends (no_tracking (F:=F) step exitcond nmax t y).
Proof.
  destruct exitcond as [p|]; cbn [no_tracking].
  - apply appends_bind.
    + apply appends_for_in. intros i [t' y'].
      apply appends_bind; [apply appends_call_step|]. intros [t'' y''].
      apply appends_bind; [apply appends_call_exit|].
      intros []; apply appends_ret.
    + intros [[? ?] [? ?]]. apply appends_ret.
  - apply appends_bind; [apply appends_take_steps|].
    intros [? ?]. apply appends_ret.
Qed.

Lemma wp_appends {A} (m : M A) (Inv : list ndarray -> Prop) w :
  appends m ->
  (forall h ext, Inv h -> Inv (h ++ ext)) ->
  Inv (heap w) ->
  wp m (fun _ w' => Inv (heap w')) (fun _ w' => Inv (heap w')) w.
Proof.
  intros Hm Hst HI. unfold wp. destruct (Hm w) as [ext Hext].
  destruct (m w) as [[a|e] w']; cbn [snd] in Hext; rewrite Hext; by apply Hst.
Qed.

(** Sequencing under an invariant that also holds when an exception
    ends the run. *)
Lemma wp_bind_inv {A B} (m : M A) (k : A -> M B) (R : A -> world -> Prop)
    (Inv : world -> Prop) (Q : B -> world -> Prop) E w :
  wp m R (fun _ w' => Inv w') w ->
  (forall e w', Inv w' -> E e w') ->
  (forall a w', R a w' -> wp (k a) Q E w') ->
  wp (bind m k) Q E w.
Proof.
  intros Hm HE Hk. apply wp_bind. eapply wp_mono; [| |exact Hm].
  - intros a w' HR. by apply Hk.
  - intros e w' HI. by apply HE.
Qed.

Section Tracked.
Variables (h0 : list (ndarray (F:=F))) (t : F) (v : list F).

Lemma tracked_ok_app ta ya h ext :
  tracked_ok h0 t v ta ya h -> tracked_ok h0 t v ta ya (h ++ ext).
Proof.
  intros ([ext0 ->] & Hta & Hya & (T & HT & HT0) & (m & Y & HY & HY0)).
  split; [|split; [done|split; [done|split]]].
  - exists (ext0 ++ ext). by rewrite app_assoc.
  - exists T. split; [|done]. apply lookup_app_l_Some, HT.
  - exists m, Y. split; [|done]. apply lookup_app_l_Some, HY.
Qed.

Lemma tracked_ok_untouched ta ya h :
  tracked_ok h0 t v ta ya h -> exists ext, h = h0 ++ ext.
Proof. by intros [? _]. Qed.

(** An assignment to an entry other than the first. *)
Lemma wp_setitem_ok ta ya i x w :
  0 < i ->
  tracked_ok h0 t v ta ya (heap w) ->
  wp (setitem ta i x)
     (fun _ w' => tracked_ok h0 t v ta ya (heap w'))
     (fun _ w' => tracked_ok h0 t v ta ya (heap w')) w.
Proof.
  intros Hi Hok.
  pose proof Hok as ([ext Hext] & Hta & Hya & (T & HT & HT0) & (m & Y & HY & HY0)).
  unfold wp, setitem, bind, load. rewrite HT.
  destruct (decide (i < length T)) as [Hlt|]; [|done].
  cbn [store heap].
  assert (ta <> ya) by (intros ->; congruence).
  split; [|split; [done|split; [done|split]]].
  - exists (<[ta - length h0 := Arr1 (<[i := x]> T)]> ext).
    rewrite Hext. by rewrite insert_app_r_alt.
  - exists (<[i := x]> T). split.
    + apply list_lookup_insert_eq. by eapply lookup_lt_Some.
    + rewrite list_lookup_insert_ne by lia. done.
  - exists m, Y. split; [|done]. by rewrite list_lookup_insert_ne.
Qed.

Lemma wp_setrow_ok ta ya i x w :
  0 < i ->
  tracked_ok h0 t v ta ya (heap w) ->
  wp (setrow ya i x)
     (fun _ w' => tracked_ok h0 t v ta ya (heap w'))
     (fun _ w' => tracked_ok h0 t v ta ya (heap w')) w.
Proof.
  intros Hi Hok.
  pose proof Hok as ([ext Hext] & Hta & Hya & (T & HT & HT0) & (m & Y & HY & HY0)).
  assert (ta <> ya) by (intros ->; congruence).
  assert (Hstore : forall x',
    tracked_ok h0 t v ta ya (<[ya := Arr2 m (<[i := x']> Y)]> (heap w))).
  { intros x'. split; [|split; [done|split; [done|split]]].
    - exists (<[ya - length h0 := Arr2 m (<[i := x']> Y)]> ext).
      rewrite Hext. by rewrite insert_app_r_alt.
    - exists T. split; [|done]. by rewrite list_lookup_insert_ne.
    - exists m, (<[i := x']> Y). split.
      + apply list_lookup_insert_eq. by eapply lookup_lt_Some.
      + rewrite list_lookup_insert_ne by lia. done. }
  unfold wp, setrow, bind, load. rewrite HY.
  destruct (decide (i < length Y)) as [Hlt|]; [|done].
  destruct (decide (length x = m)); [apply Hstore|].
  destruct x as [|x0 [|x1 x]]; [done|apply Hstore|done].
Qed.

Lemma wp_record_ok ta ya i t' y' w :
  0 < i ->
  tracked_ok h0 t v ta ya (heap w) ->
  wp (record_sample ta ya i t' y')
     (fun _ w' => tracked_ok h0 t v ta ya (heap w'))
     (fun _ w' => tracked_ok h0 t v ta ya (heap w')) w.
Proof.
  intros Hi Hok. unfold record_sample.
  eapply wp_bind_inv; [by apply wp_setitem_ok|done|].
  intros [] w1 H1. cbn beta in H1.
  eapply wp_bind_inv.
  - apply (wp_appends _ (tracked_ok h0 t v ta ya)); [apply appends_contents| |done].
    intros. by apply tracked_ok_app.
  - done.
  - intros x w2 H2. by apply wp_setrow_ok.
Qed.

Lemma head_delete_at {A} (xs : list A) a b x :
  0 < a -> xs !! 0 = Some x -> delete_at (range a b) 0 xs !! 0 = Some x.
Proof.
  intros Ha Hx. rewrite delete_at_range.
  destruct xs as [|x' xs]; [done|]. destruct a; [lia|]. done.
Qed.

(** The arrays [np.delete] returns begin like the arrays they are made
    from. *)
Lemma wp_np_delete_ok_t ta ya a b w :
  0 < a ->
  tracked_ok h0 t v ta ya (heap w) ->
  wp (np_delete numpy_strict ta (range a b))
     (fun ta' w' => tracked_ok h0 t v ta' ya (heap w'))
     (fun _ w' => tracked_ok h0 t v ta ya (heap w')) w.
Proof.
  intros Ha Hok.
  pose proof Hok as ([ext Hext] & Hta & Hya & (T & HT & HT0) & (m & Y & HY & HY0)).
  unfold wp, np_delete, bind, load. rewrite HT.
  match goal with |- context [if ?b then _ else _] => destruct b end; [done|].
  cbn [alloc heap]. split; [|split; [|split; [done|split]]].
  - exists (ext ++ [Arr1 (delete_at (range a b) 0 T)]).
    by rewrite Hext, app_assoc.
  - rewrite Hext, length_app. lia.
  - exists (delete_at (range a b) 0 T). split.
    + by apply list_lookup_middle.
    + by apply head_delete_at.
  - exists m, Y. split; [|done]. by apply lookup_app_l_Some.
Qed.

Lemma wp_np_delete_ok_y ta ya a b w :
  0 < a ->
  tracked_ok h0 t v ta ya (heap w) ->
  wp (np_delete numpy_strict ya (range a b))
     (fun ya' w' => tracked_ok h0 t v ta ya' (heap w'))
     (fun _ w' => tracked_ok h0 t v ta ya (heap w')) w.
Proof.
  intros Ha Hok.
  pose proof Hok as ([ext Hext] & Hta & Hya & (T & HT & HT0) & (m & Y & HY & HY0)).
  unfold wp, np_delete, bind, load. rewrite HY.
  match goal with |- context [if ?b then _ else _] => destruct b end; [done|].
  cbn [alloc heap]. split; [|split; [done|split; [|split]]].
  - exists (ext ++ [Arr2 m (delete_at (range a b) 0 Y)]).
    by rewrite Hext, app_assoc.
  - rewrite Hext, length_app. lia.
  - exists T. split; [|done]. by apply lookup_app_l_Some.
  - exists m, (delete_at (range a b) 0 Y). split.
    + by apply list_lookup_middle.
    + by apply head_delete_at.
Qed.

Lemma wp_appends_ok {A B} (m : M A) (k : A -> M B) ta ya
    (Q : B -> world -> Prop) E w :
  appends m ->
  tracked_ok h0 t v ta ya (heap w) ->
  (forall e w', tracked_ok h0 t v ta ya (heap w') -> E e w') ->
  (forall a w', tracked_ok h0 t v ta ya (heap w') -> wp (k a) Q E w') ->
  wp (bind m k) Q E w.
Proof.
  intros Hm Hok HE Hk.
  eapply (wp_bind_inv _ _ _ (fun w' => tracked_ok h0 t v ta ya (heap w')));
    [|exact HE|exact Hk].
  apply (wp_appends _ (tracked_ok h0 t v ta ya)); [done| |done].
  intros. by apply tracked_ok_app.
Qed.

Lemma wp_record_ok_bind {B} (k : M B) ta ya i t' y'
    (Q : B -> world -> Prop) E w :
  0 < i ->
  tracked_ok h0 t v ta ya (heap w) ->
  (forall e w', tracked_ok h0 t v ta ya (heap w') -> E e w') ->
  (forall w', tracked_ok h0 t v ta ya (heap w') -> wp k Q E w') ->
  wp (bind (record_sample ta ya i t' y') (fun _ => k)) Q E w.
Proof.
  intros Hi Hok HE Hk.
  eapply (wp_bind_inv _ _ _ (fun w' => tracked_ok h0 t v ta ya (heap w')));
    [by apply wp_record_ok|exact HE|].
  intros [] w' H'. by apply Hk.
Qed.

Lemma frame_post_raise ta ya e w :
  tracked_ok h0 t v ta ya (heap w) -> frame_post h0 t v (Raise e, w).
Proof. intros Hok. split; [by eapply tracked_ok_untouched|done]. Qed.

Lemma frame_post_trajectory ta ya w :
  tracked_ok h0 t v ta ya (heap w) ->
  frame_post h0 t v (Done (Trajectory ta ya), w).
Proof.
  intros Hok. split; [by eapply tracked_ok_untouched|].
  by intros ta' ya' [= <- <-].
Qed.

End Tracked.

(** After the allocation of the arrays and the recording of the initial
    sample. *)
Lemma tracked_ok_setup w m c t v :
  0 < c ->
  tracked_ok (heap w) t v (length (heap w)) (S (length (heap w)))
    (heap (tracking w m c [(t, v)] [] [])).
Proof.
  intros Hc. unfold tracking. cbn [heap fmap list_fmap fst snd].
  split; [by eexists|]. split; [done|]. split; [lia|]. split.
  - eexists. split; [apply lookup_track0|done].
  - eexists _, _. split; [apply lookup_track1|done].
Qed.

(** Every step tracked: whatever the run does, and however it ends. *)
Lemma track_all_frame step exitcond n t y v w :
  heap w !! y = Some (Arr1 v) ->
  frame_post (heap w) t v (track_all numpy_strict step exitcond n t y w).
Proof.
  intros Hy. apply wp_post. unfold track_all.
  eapply wp_track_setup; [done|lia|].
  pose proof (tracked_ok_setup w (length v) (n + 1) t v ltac:(lia)) as H0.
  set (lt := length (heap w)) in *. set (ly := S (length (heap w))) in *.
  destruct exitcond as [p|].
  - eapply (wp_bind_inv _ _
      (fun r w' => tracked_ok (heap w) t v r.2.1 r.2.2 (heap w'))
      (fun w' => exists ta ya, tracked_ok (heap w) t v ta ya (heap w'))).
    + apply (wp_for_seq (fun _ _ st w' =>
        tracked_ok (heap w) t v st.1 st.2 (heap w'))); [| |done].
      * intros j io [ta ya] w' Hj Hok. cbn [fst snd] in Hok.
        assert (HE : forall e w', tracked_ok (heap w) t v ta ya (heap w') ->
                  exists ta ya, tracked_ok (heap w) t v ta ya (heap w'))
          by eauto.
        eapply wp_appends_ok; [apply appends_getitem|done|eauto|].
        intros ti w1 H1.
        eapply wp_appends_ok; [apply appends_getrow|done|eauto|].
        intros vi w2 H2.
        eapply wp_appends_ok; [apply appends_apply_step|done|eauto|].
        intros [t' y'] w3 H3.
        eapply wp_record_ok_bind; [lia|done|eauto|].
        intros w4 H4.
        eapply wp_appends_ok; [apply appends_getitem|done|eauto|].
        intros ti' w5 H5.
        eapply wp_appends_ok; [apply appends_getrow|done|eauto|].
        intros vi' w6 H6.
        eapply wp_appends_ok; [apply appends_apply_exit|done|eauto|].
        intros [] w7 H7; [|by apply wp_ret].
        eapply wp_bind_inv; [apply wp_np_delete_ok_t; [lia|done]|eauto|].
        intros ta' w8 H8. cbn beta in H8.
        eapply wp_bind_inv; [apply wp_np_delete_ok_y; [lia|done]| |].
        { intros e w9 H9. cbn beta in H9. eauto. }
        intros ya' w9 H9. by apply wp_ret.
      * by intros io [ta ya] w' Hok.
    + intros e w' (ta & ya & Hok). by eapply frame_post_raise.
    + intros [[fl io] [ta ya]] w' Hok. apply wp_ret.
      by apply frame_post_trajectory.
  - eapply (wp_bind_inv _ _
      (fun _ w' => tracked_ok (heap w) t v lt ly (heap w'))
      (fun w' => tracked_ok (heap w) t v lt ly (heap w'))).
    + apply (wp_for_seq (fun _ _ _ w' =>
        tracked_ok (heap w) t v lt ly (heap w'))); [| |done].
      * intros j io [] w' Hj Hok.
        eapply wp_appends_ok; [apply appends_getitem|done|eauto|].
        intros ti w1 H1.
        eapply wp_appends_ok; [apply appends_getrow|done|eauto|].
        intros vi w2 H2.
        eapply wp_appends_ok; [apply appends_apply_step|done|eauto|].
        intros [t' y'] w3 H3.
        eapply wp_record_ok_bind; [lia|done|eauto|].
        intros w4 H4. by apply wp_ret.
      * by intros io [] w' Hok.
    + intros e w' Hok. by eapply frame_post_raise.
    + intros r w' Hok. apply wp_ret. by apply frame_post_trajectory.
Qed.

Lemma wp_final_tracked_ok step n z h0 t v ta ya io t' y' w :
  tracked_ok h0 t v ta ya (heap w) ->
  (forall i, io = Some i -> 0 < i) ->
  wp (final_tracked step n z ta ya io t' y')
     (fun _ w' => tracked_ok h0 t v ta ya (heap w'))
     (fun _ w' => tracked_ok h0 t v ta ya (heap w')) w.
Proof.
  intros Hok Hio. unfold final_tracked.
  eapply wp_appends_ok; [apply appends_take_steps|done|eauto|].
  intros [t'' y''] w1 H1. apply wp_bind. destruct io as [i|].
  - apply wp_local. apply wp_record_ok; [by apply Hio|done].
  - by apply wp_raise.
Qed.

(** Every [z]-th step tracked. *)
Lemma track_interval_frame step exitcond n z t y v w :
  (1 < z)%Z ->
  heap w !! y = Some (Arr1 v) ->
  frame_post (heap w) t v
    (track_interval numpy_strict step exitcond n z t y w).
Proof.
  intros Hz Hy. apply wp_post. unfold track_interval.
  assert (Hc : 0 < Z.to_nat (ntrack_of n z + 1)).
  { unfold ntrack_of.
    pose proof (Z.div_pos (Z.of_nat n + z - 1) z ltac:(lia) ltac:(lia)). lia. }
  eapply wp_track_setup; [done|done|].
  pose proof (tracked_ok_setup w (length v) _ t v Hc) as H0.
  set (lt := length (heap w)) in *. set (ly := S (length (heap w))) in *.
  destruct exitcond as [p|].
  - eapply (wp_bind_inv _ _
      (fun r w' => tracked_ok (heap w) t v r.2.1.2 r.2.2 (heap w') /\
                   forall i, r.1.2 = Some i -> 0 < i)
      (fun w' => exists ta ya, tracked_ok (heap w) t v ta ya (heap w'))).
    + apply (wp_for_seq (fun _ io st w' =>
        tracked_ok (heap w) t v st.1.2 st.2 (heap w') /\
        forall i, io = Some i -> 0 < i)); [| |done].
      * intros j io [[[t' y'] ta] ya] w' Hj [Hok Hio]. cbn [fst snd] in Hok.
        eapply wp_appends_ok; [apply appends_take_steps|done|eauto|].
        intros [t'' y''] w1 H1.
        eapply wp_record_ok_bind; [lia|done|eauto|].
        intros w2 H2.
        eapply wp_appends_ok; [apply appends_getitem|done|eauto|].
        intros ti w3 H3.
        eapply wp_appends_ok; [apply appends_getrow|done|eauto|].
        intros vi w4 H4.
        eapply wp_appends_ok; [apply appends_apply_exit|done|eauto|].
        intros [] w5 H5.
        -- eapply wp_bind_inv; [apply wp_np_delete_ok_t; [lia|done]| |].
           { intros e w6 H6. cbn beta in H6. eauto. }
           intros ta' w6 H6. cbn beta in H6.
           eapply wp_bind_inv; [apply wp_np_delete_ok_y; [lia|done]| |].
           { intros e w7 H7. cbn beta in H7. eauto. }
           intros ya' w7 H7. apply wp_ret. cbn [fst snd].
           split; [done|]. intros i [= <-]. lia.
        -- apply wp_ret. cbn [fst snd]. split; [done|]. intros i [= <-]. lia.
      * by intros io [[[t' y'] ta] ya] w' Hok.
    + intros e w' (ta & ya & Hok). by eapply frame_post_raise.
    + intros [[fl io] [[[t' y'] ta] ya]] w' [Hok Hio]. cbn [fst snd] in *.
      destruct fl.
      * eapply (wp_bind_inv _ _
          (fun _ w' => tracked_ok (heap w) t v ta ya (heap w'))
          (fun w' => tracked_ok (heap w) t v ta ya (heap w')));
          [by apply wp_final_tracked_ok| |].
        { intros e w1 H1. by eapply frame_post_raise. }
        intros [] w1 H1. apply wp_ret. by apply frame_post_trajectory.
      * apply wp_ret. by apply frame_post_trajectory.
  - eapply (wp_bind_inv _ _
      (fun r w' => tracked_ok (heap w) t v lt ly (heap w') /\
                   forall i, r.1.2 = Some i -> 0 < i)
      (fun w' => tracked_ok (heap w) t v lt ly (heap w'))).
    + apply (wp_for_seq (fun _ io _ w' =>
        tracked_ok (heap w) t v lt ly (heap w') /\
        forall i, io = Some i -> 0 < i)); [| |done].
      * intros j io [t' y'] w' Hj [Hok Hio].
        eapply wp_appends_ok; [apply appends_take_steps|done|eauto|].
        intros [t'' y''] w1 H1.
        eapply wp_record_ok_bind; [lia|done|eauto|].
        intros w2 H2. apply wp_ret. cbn [fst snd].
        split; [done|]. intros i [= <-]. lia.
      * by intros io [t' y'] w' Hok.
    + intros e w' Hok. by eapply frame_post_raise.
    + intros [[fl io] [t' y']] w' [Hok Hio]. cbn [fst snd] in *.
      eapply (wp_bind_inv _ _
        (fun _ w' => tracked_ok (heap w) t v lt ly (heap w'))
        (fun w' => tracked_ok (heap w) t v lt ly (heap w')));
        [by apply wp_final_tracked_ok| |].
      { intros e w1 H1. by eapply frame_post_raise. }
      intros [] w1 H1. apply wp_ret. by apply frame_post_trajectory.
Qed.

(** Without tracking no trajectory is returned. *)
Lemma no_tracking_result step exitcond n t y w ta ya :
  (no_tracking step exitcond n t y w).1 <> Done (Trajectory ta ya).
Proof.
  apply (wp_post _ (fun rw => rw.1 <> Done (Trajectory ta ya))).
  assert (Htop : forall A (m : M (F:=F) A) w',
            wp m (fun _ _ => True) (fun _ _ => True) w').
  { intros A m w'. unfold wp. by destruct (m w') as [[]]. }
  destruct exitcond as [p|]; cbn [no_tracking]; apply wp_bind;
    (eapply wp_mono; [| |apply Htop]; [|done]).
  - intros [[? ?] [? ?]] w' _. by apply wp_ret.
  - intros [? ?] w' _. by apply wp_ret.
Qed.

Context {Eqn Method : Type}.
Variable setstep : Eqn -> Method -> F -> F -> list F -> F * list F.

(** Whatever the arguments, and however the run ends. *)
Lemma iterator_frame fn f h method t yo nmax exitcond trackint v w :
  heap w !! default (y_default fn) yo = Some (Arr1 v) ->
  frame_post (heap w) t v
    (iterator numpy_strict setstep fn f h method t yo nmax exitcond trackint
       w).
Proof.
  intros Hy. unfold iterator.
  assert (Hinvalid : frame_post (heap w) t v (invalid_interval w)).
  { split; [|done]. exists []. by rewrite app_nil_r. }
  assert (Hraise : frame_post (heap w) t v (raise (A:=result) TypeError w)).
  { split; [|done]. exists []. by rewrite app_nil_r. }
  destruct trackint as [|z|q].
  - split; [apply appends_no_tracking|].
    intros ta ya Hr. by apply no_tracking_result in Hr.
  - destruct (z =? 1)%Z; [by apply track_all_frame|].
    destruct (Z.ltb_spec 1 z); [by apply track_interval_frame|done].
  - destruct (Qeq_bool q 1); [by apply track_all_frame|].
    by destruct (negb (Qle_bool q 1)).
Qed.

(** C9.  No run mutates the initial sample: after the run, however it
    ends, the caller's array [y] holds the values it held before.  When
    tracking is enabled, the returned arrays are objects other than [y],
    their entry 0 is the initial time and the initial state, and a later
    assignment to the returned arrays leaves [y] as it is. *)
Theorem initial_sample_not_mutated fn f h method t y v nmax exitcond
    trackint w :
  heap w !! y = Some (Arr1 v) ->
  let run :=
    iterator numpy_strict setstep fn f h method t (Some y) nmax exitcond
      trackint w in
  heap run.2 !! y = Some (Arr1 v) /\
  forall t_arr y_arr,
    run.1 = Done (Trajectory t_arr y_arr) ->
    t_arr <> y /\ y_arr <> y /\
    (exists T, heap run.2 !! t_arr = Some (Arr1 T) /\ T !! 0 = Some t) /\
    (exists m Y, heap run.2 !! y_arr = Some (Arr2 m Y) /\ Y !! 0 = Some v) /\
    forall a b,
      <[y_arr := b]> (<[t_arr := a]> (heap run.2)) !! y = Some (Arr1 v).
Proof.
  intros Hy run.
  pose proof (iterator_frame fn f h method t (Some y) nmax exitcond trackint
                v w Hy) as [[ext Hext] Htraj].
  fold run in Hext, Htraj.
  assert (Hlt : y < length (heap w)) by by eapply lookup_lt_Some.
  assert (Hafter : heap run.2 !! y = Some (Arr1 v)).
  { rewrite Hext. by apply lookup_app_l_Some. }
  split; [done|]. intros ta ya Hr.
  destruct (Htraj ta ya Hr) as (_ & Hta & Hya & HT & HY).
  repeat split; [lia|lia|done|done|].
  intros a b. rewrite !list_lookup_insert_ne by lia. done.
Qed.

(** C10.  The default of [y] is the array of six zeros that the [def]
    statement allocates; every call that omits [y] runs on that one
    array, the function's [y_default]; and no run changes what this array
    holds, so that it holds zeros at every such call as long as nothing
    else assigns to it.  It is not out of reach: without tracking and with
    [nmax = 0], the call returns this very array. *)
Theorem default_state_shared zero fn f h method t nmax exitcond trackint
    v w :
  def_iterator zero w
  = (Done (Function (length (heap w))),
     World (heap w ++ [Arr1 (replicate 6 zero)]) (trace w) (uninit w)) /\
  iterator numpy_strict setstep fn f h method t None nmax exitcond trackint w
  = iterator numpy_strict setstep fn f h method t (Some (y_default fn)) nmax
      exitcond trackint w /\
  (heap w !! y_default fn = Some (Arr1 v) ->
   heap (iterator numpy_strict setstep fn f h method t None nmax exitcond
           trackint w).2 !! y_default fn
   = Some (Arr1 v)) /\
  iterator numpy_strict setstep fn f h method t None (Some 0) exitcond TNone w
  = (Done (FinalState t (y_default fn)), w).
Proof.
  split; [done|]. split; [done|]. split.
  - intros Hy.
    pose proof (iterator_frame fn f h method t None nmax exitcond trackint
                  v w Hy) as [[ext Hext] _].
    rewrite Hext. by apply lookup_app_l_Some.
  - unfold iterator. cbn [default from_option id].
    destruct exitcond; by destruct w.
Qed.

(** C5.  An interval that is an integer below one, or a non-integer
    below one, ends the run at once: the error text is printed and
    [SystemExit] raised, no call of the advance operation is made, no
    object is allocated or changed and nothing is returned.  A non-integer
    above one ends the run as early, but with the [TypeError] of the
    allocation of the arrays. *)
Theorem invalid_interval_rejected fn f h method t y nmax exitcond w :
  let run := iterator numpy_strict setstep fn f h method t y nmax exitcond in
  let rejected := (Raise SystemExit,
                   World (heap w) (trace w ++ [EvPrint]) (uninit w)) in
  (forall z, (z <= 0)%Z -> run (TInt z) w = rejected) /\
  (forall q, (q < 1)%Q -> run (TFloat q) w = rejected) /\
  (forall q, (1 < q)%Q -> run (TFloat q) w = (Raise TypeError, w)) /\
  step_calls (trace rejected.2) = step_calls (trace w).
Proof.
  intros run rejected. subst run. unfold iterator.
  split; [|split; [|split]].
  - intros z Hz.
    destruct (Z.eqb_spec z 1); [lia|]. by destruct (Z.ltb_spec 1 z); [lia|].
  - intros q Hq.
    destruct (Qeq_bool q 1) eqn:Heq.
    { apply Qeq_bool_iff in Heq. rewrite Heq in Hq. by apply Qlt_irrefl in Hq. }
    destruct (Qle_bool q 1) eqn:Hle; [done|].
    apply Qlt_le_weak, Qle_bool_iff in Hq. congruence.
  - intros q Hq.
    destruct (Qeq_bool q 1) eqn:Heq.
    { apply Qeq_bool_iff in Heq. rewrite Heq in Hq. by apply Qlt_irrefl in Hq. }
    destruct (Qle_bool q 1) eqn:Hle; [|done].
    apply Qle_bool_iff in Hle. by apply Qle_not_lt in Hle.
  - subst rejected. cbn [snd trace]. rewrite step_calls_app. simpl. lia.
Qed.

End Frame.

(** * The claims on concrete runs *)

Lemma reproducible_up_to_uninitialised_witness :
  (Demo.run true 1 10 None (TInt 5)).1 = Done (Trajectory 1 2) /\
  (Demo.run true 2 10 None (TInt 5)).1 = Done (Trajectory 1 2) /\
  heap (Demo.run true 1 10 None (TInt 5)).2 !! 1
  <> heap (Demo.run true 2 10 None (TInt 5)).2 !! 1.
Proof.
  pose proof (reproducible_up_to_uninitialised true Demo.setstep (Function 0)
                tt 0%Z tt 0%Z 0 [0; 0]%Z 10 5 (Demo.w0 1) (Demo.w0 2)
                eq_refl eq_refl demo_step_length ltac:(lia) ltac:(lia))
    as (_ & _ & H1 & H2 & Hto & _).
  split; [exact H1|]. split; [exact H2|].
  intros Heq. pose proof (Hto Heq) as Hjunk. discriminate Hjunk.
Defined.

(** The interval 2.5 is not rejected as invalid: the run ends with the
    [TypeError] of [np.empty]. *)
Lemma float_interval_not_rejected :
  (Demo.run true 7 4 None (TFloat (5 # 2))).1 <> Raise SystemExit.
Proof. vm_compute. congruence. Qed.

Lemma exit_truncation_witness :
  (let run := Demo.run false 7 1 (Some (fun _ _ => true)) (TInt 1) in
   run.1 = Done (Trajectory 4 5) /\
   heap run.2 !! 4 = Some (Arr1 [0; 1]%Z)) /\
  (let run := Demo.run false 7 1 (Some (fun _ _ => true)) (TInt 2) in
   run.1 = Done (Trajectory 5 6) /\
   heap run.2 !! 5 = Some (Arr1 [0; 2; 7]%Z)) /\
  (Demo.run true 7 5 (Some (fun _ _ => true)) (TInt 2)).1 = Raise IndexError.
Proof.
  assert (Hnone : forall (P : nat -> Prop) i, 1 <= i < 1 -> P i)
    by (intros; lia).
  split; [|split].
  - pose proof (exit_truncation false Demo.setstep (Function 0) tt 0%Z tt
                  0%Z 0 [0; 0]%Z 1 2 1 (fun _ _ => true) (Demo.w0 7)
                  eq_refl demo_step_length ltac:(lia) ltac:(lia))
      as [Hall _].
    destruct (Hall (Hnone _) eq_refl) as (H1 & H2 & _).
    split; [exact H1|exact H2].
  - pose proof (exit_truncation false Demo.setstep (Function 0) tt 0%Z tt
                  0%Z 0 [0; 0]%Z 1 2 1 (fun _ _ => true) (Demo.w0 7)
                  eq_refl demo_step_length ltac:(lia) ltac:(lia))
      as [_ Hint].
    assert (Hcap : 1 <= 1 + intervals 1 2) by (vm_compute; lia).
    destruct (Hint Hcap (Hnone _) eq_refl) as (H1 & H2 & _).
    split; [exact H1|exact H2].
  - pose proof (exit_truncation true Demo.setstep (Function 0) tt 0%Z tt
                  0%Z 0 [0; 0]%Z 5 2 1 (fun _ _ => true) (Demo.w0 7)
                  eq_refl demo_step_length ltac:(lia) ltac:(lia))
      as [_ Hint].
    assert (Hcap : 1 <= 1 + intervals 5 2) by (vm_compute; lia).
    exact (Hint Hcap (Hnone _) eq_refl).
Defined.

Lemma interval_overshoots_witness :
  let run := Demo.run true 7 10 None (TInt 5) in
  run.1 = Done (Trajectory 1 2) /\
  heap run.2 !! 1 = Some (Arr1 [0; 5; 15; 7]%Z) /\
  step_calls (trace run.2) = 15.
Proof.
  pose proof (interval_overshoots true Demo.setstep (Function 0) tt 0%Z tt
                0%Z 0 [0; 0]%Z 10 5 (Demo.w0 7) eq_refl demo_step_length
                ltac:(lia) ltac:(lia)) as (H1 & H2 & _ & _ & _ & H6).
  split; [exact H1|]. split; [exact H2|exact H6].
Defined.

Lemma degenerate_run_witness :
  Demo.run true 7 0 None TNone = (Done (FinalState 0%Z 0), Demo.w0 7) /\
  (Demo.run true 7 0 None (TInt 2)).1 = Raise UnboundLocalError /\
  trace (Demo.run true 7 0 None (TInt 2)).2
  = [EvStep 0 [0; 0]; EvStep 1 [10; 10]]%Z.
Proof.
  pose proof (degenerate_run true Demo.setstep (Function 0) tt 0%Z tt
                0%Z 0 [0; 0]%Z None 2 (Demo.w0 7) eq_refl demo_step_length
                ltac:(lia)) as (H1 & _ & H3 & H4).
  split; [exact H1|]. split; [exact H3|exact H4].
Defined.

Lemma track_all_trajectory_witness :
  Demo.run true 7 3 None (TInt 1)
  = (Done (Trajectory 1 2),
     World [Arr1 [0; 0]; Arr1 [0; 1; 2; 3];
            Arr2 2 [[0; 0]; [10; 10]; [20; 20]; [30; 30]];
            Arr1 [10; 10]; Arr1 [20; 20]; Arr1 [30; 30]]%Z
           [EvStep 0 [0; 0]; EvStep 1 [10; 10]; EvStep 2 [20; 20]]%Z
           (fun _ _ => 7%Z)).
Proof.
  apply (track_all_trajectory true Demo.setstep (Function 0) tt 0%Z tt
           0%Z 0 [0; 0]%Z 3 (Demo.w0 7) eq_refl demo_step_length).
Defined.

Lemma invalid_interval_rejected_witness :
  Demo.run true 7 4 None (TInt (-3))
  = (Raise SystemExit, World [Arr1 [0; 0]%Z] [EvPrint] (fun _ _ => 7%Z)) /\
  Demo.run true 7 4 None (TInt 0)
  = (Raise SystemExit, World [Arr1 [0; 0]%Z] [EvPrint] (fun _ _ => 7%Z)) /\
  Demo.run true 7 4 None (TFloat (1 # 2))
  = (Raise SystemExit, World [Arr1 [0; 0]%Z] [EvPrint] (fun _ _ => 7%Z)) /\
  Demo.run true 7 4 None (TFloat (5 # 2)) = (Raise TypeError, Demo.w0 7).
Proof.
  pose proof (invalid_interval_rejected true Demo.setstep (Function 0) tt
                0%Z tt 0%Z (Some 0) (Some 4) None (Demo.w0 7))
    as (Hint & Hlow & Hhigh & _).
  split; [exact (Hint (-3)%Z ltac:(lia))|].
  split; [exact (Hint 0%Z ltac:(lia))|].
  split; [exact (Hlow (1 # 2) eq_refl)|exact (Hhigh (5 # 2) eq_refl)].
Defined.

Lemma initial_sample_not_mutated_witness :
  let run := Demo.run false 7 5 (Some (fun t _ => (4 <=? t)%Z)) (TInt 2) in
  heap run.2 !! 0 = Some (Arr1 [0; 0]%Z) /\
  forall t_arr y_arr,
    run.1 = Done (Trajectory t_arr y_arr) ->
    t_arr <> 0 /\ y_arr <> 0 /\
    (exists T, heap run.2 !! t_arr = Some (Arr1 T) /\ T !! 0 = Some 0%Z) /\
    (exists m Y, heap run.2 !! y_arr = Some (Arr2 m Y)
                 /\ Y !! 0 = Some [0; 0]%Z) /\
    forall a b,
      <[y_arr := b]> (<[t_arr := a]> (heap run.2)) !! 0 = Some (Arr1 [0; 0]%Z).
Proof.
  apply (initial_sample_not_mutated false Demo.setstep (Function 0) tt 0%Z
           tt 0%Z 0 [0; 0]%Z (Some 5) (Some (fun t _ => (4 <=? t)%Z))
           (TInt 2) (Demo.w0 7)).
  reflexivity.
Defined.

Lemma default_state_shared_witness :
  let w1 := World [Arr1 (replicate 6 0%Z)] [] (fun _ _ => 7%Z) in
  heap (iterator true Demo.setstep (Function 0) tt 0%Z tt 0%Z None (Some 3)
          None (TInt 1) w1).2 !! 0
  = Some (Arr1 (replicate 6 0%Z)).
Proof.
  intros w1.
  pose proof (default_state_shared true Demo.setstep 0%Z (Function 0) tt 0%Z
                tt 0%Z (Some 3) None (TInt 1) (replicate 6 0%Z) w1)
    as (_ & _ & Hkept & _).
  exact (Hkept eq_refl).
Defined.

(** * Further properties of the driver *)

(** ** The first sample at which the exit condition holds *)

Section ExitIndex.
Context {F : Type}.
Variable step : F -> list F -> F * list F.
Implicit Types (s : F * list F) (p : F -> list F -> bool).

Lemma find_seq_Some (f : nat -> bool) a n k :
  find f (seq a n) = Some k ->
  a <= k < a + n /\ f k = true /\ forall i, a <= i < k -> f i = false.
Proof.
  revert a. induction n as [|n IH]; intros a; simpl; [done|].
  destruct (f a) eqn:Hfa.
  - intros [= <-]. repeat split; [lia|lia|done|]. intros i Hi. lia.
  - intros (Hk & Hfk & Hlt)%IH. repeat split; [lia|lia|done|].
    intros i Hi. destruct (decide (i = a)) as [->|]; [done|].
    apply Hlt. lia.
Qed.

Lemma find_seq_None (f : nat -> bool) a n i :
  find f (seq a n) = None -> a <= i < a + n -> f i = false.
Proof.
  revert a. induction n as [|n IH]; intros a; simpl; [lia|].
  destruct (f a) eqn:Hfa; [done|].
  intros Hnone Hi. destruct (decide (i = a)) as [->|]; [done|].
  apply (IH (S a)); [done|lia].
Qed.

Lemma exit_index_Some p N n s k :
  exit_index p step N n s = Some k ->
  1 <= k <= n /\ fires p step N s k = true /\
  forall i, 1 <= i < k -> fires p step N s i = false.
Proof.
  intros (Hk & Hfk & Hlt)%find_seq_Some. repeat split; [lia|lia|done|done].
Qed.

Lemma exit_index_None p N n s i :
  exit_index p step N n s = None -> 1 <= i <= n -> fires p step N s i = false.
Proof. intros Hnone Hi. apply (find_seq_None _ 1 n); [done|lia]. Qed.

Lemma exit_calls_app (tr1 tr2 : list (event (F:=F))) :
  exit_calls (tr1 ++ tr2) = exit_calls tr1 + exit_calls tr2.
Proof.
  induction tr1 as [|[] tr1 IH]; simpl; [done|done| |done]. by rewrite IH.
Qed.

Lemma exit_calls_step_events k s : exit_calls (step_events step k s) = 0.
Proof.
  revert s. induction k as [|k IH]; intros s; simpl; [done|]. apply IH.
Qed.

Lemma exit_calls_interval_events N k s :
  exit_calls (interval_events step N k s) = k.
Proof.
  revert s. induction k as [|k IH]; intros s; simpl; [done|].
  rewrite exit_calls_app, exit_calls_step_events. simpl. by rewrite IH.
Qed.

Lemma step_calls_interval_events N k s :
  step_calls (interval_events step N k s) = k * N.
Proof.
  revert s. induction k as [|k IH]; intros s; simpl; [done|].
  rewrite step_calls_app, step_calls_step_events. simpl. by rewrite IH.
Qed.

End ExitIndex.

(** ** Tracking disabled, with an exit condition *)

Section NoTrackingExit.
Context {F Eqn Method : Type}.
Variable numpy_strict : bool.
Variable setstep : Eqn -> Method -> F -> F -> list F -> F * list F.
Implicit Types (w : world (F:=F)).

(** The loop is left after the call [k] of the advance operation: the
    first after which the exit condition holds, or the last of the [n]
    calls. *)
Lemma no_tracking_exit_run step p t y v n k w :
  heap w !! y = Some (Arr1 v) ->
  k <= n ->
  (forall i, 1 <= i < k -> fires p step 1 (t, v) i = false) ->
  k = n \/ (1 <= k /\ fires p step 1 (t, v) k = true) ->
  no_tracking step (Some p) n t y w
  = (Done (FinalState (after step k (t, v)).1
             (state_loc y (length (heap w)) k)),
     World (heap w ++ step_states step k (t, v))
           (trace w ++ interval_events step 1 k (t, v)) (uninit w)).
Proof.
  intros Hy Hkn Hbefore Hstop. unfold no_tracking.
  apply wp_eq, wp_bind. unfold range. rewrite Nat.sub_0_r.
  apply (wp_for_seq
    (fun j _ ty w' =>
       j <= k /\ (j = k -> k = n) /\
       ty = ((after step j (t, v)).1, state_loc y (length (heap w)) j) /\
       w' = World (heap w ++ step_states step j (t, v))
                  (trace w ++ interval_events step 1 j (t, v)) (uninit w))).
  - intros j io [t' y'] w' Hj (Hjk & Hjn & [= -> ->] & ->).
    assert (Hlt : j < k) by (destruct (decide (j = k)); [lia|lia]).
    apply wp_bind. unfold call_step. apply wp_bind.
    eapply wp_contents; [by apply lookup_state_loc|].
    apply wp_apply_step. cbn [fst snd heap trace uninit].
    apply wp_bind. unfold call_exit. apply wp_bind.
    eapply wp_contents.
    { cbn [heap]. by apply list_lookup_middle. }
    apply wp_apply_exit. cbn [heap trace uninit].
    fold (advance step (after step j (t, v))). rewrite <- after_S_r.
    assert (Hw : World
               ((heap w ++ step_states step j (t, v))
                  ++ [Arr1 (after step (S j) (t, v)).2])
               (((trace w ++ interval_events step 1 j (t, v))
                   ++ [EvStep (after step j (t, v)).1 (after step j (t, v)).2])
                  ++ [EvExit (after step (S j) (t, v)).1
                             (after step (S j) (t, v)).2])
               (uninit w)
             = World (heap w ++ step_states step (S j) (t, v))
                 (trace w ++ interval_events step 1 (S j) (t, v)) (uninit w)).
    { rewrite step_states_S_r, interval_events_S_r, !Nat.mul_1_r.
      cbn [step_events app]. by rewrite <- !app_assoc. }
    rewrite Hw. clear Hw.
    assert (Hloc : length (heap w ++ step_states step j (t, v))
                   = state_loc y (length (heap w)) (S j)).
    { rewrite length_app, length_step_states. done. }
    rewrite Hloc. clear Hloc.
    destruct (p _ _) eqn:Hp.
    + apply wp_ret. cbn [fst snd].
      destruct (decide (S j = k)) as [<-|Hne]; [done|].
      specialize (Hbefore (S j) ltac:(lia)).
      unfold fires in Hbefore. rewrite Nat.mul_1_r in Hbefore. congruence.
    + apply wp_ret. cbn [fst snd]. split; [lia|]. split; [|done].
      intros <-. destruct Hstop as [<-|[_ Hf]]; [done|].
      unfold fires in Hf. rewrite Nat.mul_1_r in Hf. congruence.
  - intros io ty w' (Hnk & Hn & -> & ->). apply wp_ret.
    by replace k with n by lia.
  - cbn [after step_states interval_events state_loc]. rewrite !app_nil_r.
    split; [lia|]. split; [|by destruct w].
    intros <-. destruct Hstop as [<-|[? _]]; [done|lia].
Qed.

(** X1.  Without tracking, a run with an exit condition [p] stops after
    of the advance operation whose result satisfies [p], or after
    [nmax = n] calls when there is none: with [k] the number of that call,
    it returns the time and the state array of the sample after [k]
    steps.  The exit condition is called once after each call of the
    advance operation, on the sample just returned, and never on the
    initial sample; the advance operation is called [k <= n] times. *)
Theorem no_tracking_exit_stops fn f h method t y v n p w :
  heap w !! y = Some (Arr1 v) ->
  let step := setstep f method h in
  let k := default n (exit_index p step 1 n (t, v)) in
  let y' := state_loc y (length (heap w)) k in
  let run :=
    iterator numpy_strict setstep fn f h method t (Some y) (Some n) (Some p)
      TNone w in
  k <= n /\
  run.1 = Done (FinalState (after step k (t, v)).1 y') /\
  heap run.2 !! y' = Some (Arr1 (after step k (t, v)).2) /\
  trace run.2 = trace w ++ interval_events step 1 k (t, v) /\
  step_calls (trace run.2) = step_calls (trace w) + k /\
  exit_calls (trace run.2) = exit_calls (trace w) + k.
Proof.
  intros Hy step k y' run.
  assert (Hk : k <= n /\
               (forall i, 1 <= i < k -> fires p step 1 (t, v) i = false) /\
               (k = n \/ (1 <= k /\ fires p step 1 (t, v) k = true))).
  { subst k. destruct (exit_index p step 1 n (t, v)) as [k|] eqn:Hidx.
    - apply exit_index_Some in Hidx as (Hk & Hf & Hb). simpl.
      split; [lia|]. split; [done|]. right. split; [lia|done].
    - simpl. split; [done|]. split; [|by left].
      intros i Hi. apply (exit_index_None _ _ _ _ _ _ Hidx). lia. }
  destruct Hk as (Hkn & Hbefore & Hstop).
  subst run. unfold iterator. cbn [default from_option id].
  rewrite (no_tracking_exit_run _ _ _ _ v n k) by done.
  cbn [fst snd heap trace]. fold step.
  split; [done|]. split; [done|]. split; [by apply lookup_state_loc|].
  split; [done|].
  rewrite step_calls_app, exit_calls_app, step_calls_interval_events,
    exit_calls_interval_events.
  split; [lia|done].
Qed.

(** Without tracking, an exit condition that holds of none of the [n]
    samples changes nothing but the trace: the run returns what the run
    without exit condition returns, in the same heap. *)
Lemma no_tracking_exit_never fn f h method t y v n p w :
  heap w !! y = Some (Arr1 v) ->
  exit_index p (setstep f method h) 1 n (t, v) = None ->
  let run exitcond :=
    iterator numpy_strict setstep fn f h method t (Some y) (Some n) exitcond
      TNone w in
  (run (Some p)).1 = (run None).1 /\ heap (run (Some p)).2 = heap (run None).2.
Proof.
  intros Hy Hidx run. subst run. cbv beta.
  rewrite (no_tracking_run _ _ _ _ _ _ _ _ v) by done.
  unfold iterator. cbn [default from_option id].
  rewrite (no_tracking_exit_run _ _ _ _ v n n); [done|done|lia| |by left].
  intros i Hi. apply (exit_index_None _ _ _ _ _ _ Hidx). lia.
Qed.

End NoTrackingExit.

Lemma no_tracking_exit_stops_witness :
  let run := Demo.run true 7 5 (Some (fun t _ => (2 <=? t)%Z)) TNone in
  run.1 = Done (FinalState 2%Z 2) /\
  heap run.2 !! 2 = Some (Arr1 [20; 20]%Z) /\
  step_calls (trace run.2) = 2 /\
  exit_calls (trace run.2) = 2.
Proof.
  pose proof (no_tracking_exit_stops true Demo.setstep (Function 0) tt 0%Z tt
                0%Z 0 [0; 0]%Z 5 (fun t _ => (2 <=? t)%Z) (Demo.w0 7) eq_refl)
    as (_ & H1 & H2 & _ & H3 & H4).
  split; [exact H1|]. split; [exact H2|]. split; [exact H3|exact H4].
Defined.

(** ** Tracking of every step, with an exit condition *)

Section TrackAllExit.
Context {F Eqn Method : Type}.
Variable numpy_strict : bool.
Variable setstep : Eqn -> Method -> F -> F -> list F -> F * list F.
Implicit Types (w : world (F:=F)).

(** When the exit condition holds of none of the [n] samples the loop
    runs through, [np.delete] is not called and the arrays allocated at
    the start are returned, every entry written. *)
Lemma track_all_exit_never_run step p t y v n w :
  heap w !! y = Some (Arr1 v) ->
  (forall t' v', length (step t' v').2 = length v') ->
  (forall i, 1 <= i <= n -> fires p step 1 (t, v) i = false) ->
  track_all numpy_strict step (Some p) n t y w
  = (Done (Trajectory (length (heap w)) (S (length (heap w)))),
     World (heap w ++ Arr1 (orbit step (S n) (t, v)).*1
                   :: Arr2 (length v) (orbit step (S n) (t, v)).*2
                   :: step_states step n (t, v))
           (trace w ++ interval_events step 1 n (t, v)) (uninit w)).
Proof.
  intros Hy Hstep Hnever. unfold track_all.
  apply wp_eq. eapply wp_track_setup; [done|lia|].
  apply wp_bind. unfold range at 1. replace (n + 1 - 1) with n by lia.
  apply (wp_for_seq (fun j _ st w' =>
    st = (length (heap w), S (length (heap w))) /\
    w' = tracking w (length v) (n + 1) (orbit step (S j) (t, v))
           (step_states step j (t, v)) (interval_events step 1 j (t, v)))).
  - intros j io [ta ya] w' Hj ([= -> ->] & ->).
    apply wp_track_all_iteration; [done|done|].
    assert (Hlast : orbit step (S (S j)) (t, v) !! (1 + j)
                    = Some (after step (S j) (t, v)))
      by (apply orbit_lookup; lia).
    apply wp_bind. eapply wp_getitem_tracking; [exact Hlast|].
    apply wp_bind. eapply wp_getrow_tracking; [exact Hlast|].
    apply wp_bind, wp_apply_exit_tracking.
    assert (Hev : (interval_events step 1 j (t, v)
                     ++ step_events step 1 (after step j (t, v)))
                    ++ [EvExit (after step (S j) (t, v)).1
                               (after step (S j) (t, v)).2]
                  = interval_events step 1 (S j) (t, v)).
    { rewrite interval_events_S_r, <- app_assoc.
      by rewrite !Nat.mul_1_r. }
    rewrite Hev. clear Hev.
    specialize (Hnever (S j) ltac:(lia)). unfold fires in Hnever.
    rewrite Nat.mul_1_r in Hnever. rewrite Hnever.
    by apply wp_ret.
  - intros io [ta ya] w' ([= -> ->] & ->). apply wp_ret. split; [done|].
    apply tracking_full. rewrite length_orbit. lia.
  - done.
Qed.

(** X2.  With [trackint = 1] and an exit condition [p], whatever [p] is: let
    [k] be the index of the first sample that satisfies [p], or [n] when
    none of the [n] samples does.  The run returns two arrays that hold
    exactly the [k + 1] samples of index 0 to [k], entry [i] being the
    advance operation applied [i] times: never more than [n + 1] entries,
    none left as allocated.  The advance operation and the exit condition
    are each called [k] times, the exit condition after each call of the
    advance operation on the sample just stored. *)
Theorem track_all_exit_samples fn f h method t y v n p w :
  heap w !! y = Some (Arr1 v) ->
  (forall t' v', length (setstep f method h t' v').2 = length v') ->
  let step := setstep f method h in
  let k := default n (exit_index p step 1 n (t, v)) in
  let samples := orbit step (S k) (t, v) in
  let run :=
    iterator numpy_strict setstep fn f h method t (Some y) (Some n) (Some p)
      (TInt 1) w in
  k <= n /\
  length samples = k + 1 /\
  (exists t_arr y_arr,
     run.1 = Done (Trajectory t_arr y_arr) /\
     heap run.2 !! t_arr = Some (Arr1 samples.*1) /\
     heap run.2 !! y_arr = Some (Arr2 (length v) samples.*2)) /\
  trace run.2 = trace w ++ interval_events step 1 k (t, v) /\
  step_calls (trace run.2) = step_calls (trace w) + k /\
  exit_calls (trace run.2) = exit_calls (trace w) + k.
Proof.
  intros Hy Hstep step k samples run.
  assert (Hcount : forall tr : list (event (F:=F)),
            step_calls (tr ++ interval_events step 1 k (t, v))
            = step_calls tr + k /\
            exit_calls (tr ++ interval_events step 1 k (t, v))
            = exit_calls tr + k).
  { intros tr.
    rewrite step_calls_app, exit_calls_app, step_calls_interval_events,
      exit_calls_interval_events. lia. }
  assert (Hlen : length samples = k + 1)
    by (subst samples; rewrite length_orbit; lia).
  subst run. unfold iterator. cbn [default from_option id Z.eqb Pos.eqb].
  fold step. subst k.
  destruct (exit_index p step 1 n (t, v)) as [k|] eqn:Hidx;
    cbn [default from_option id] in *.
  - apply exit_index_Some in Hidx as (Hk & Hf & Hb).
    unfold fires in Hf, Hb. rewrite Nat.mul_1_r in Hf.
    rewrite (track_all_exit_run _ _ _ _ _ v n k);
      [|done|done|done| |done].
    2:{ intros i Hi. specialize (Hb i Hi). by rewrite Nat.mul_1_r in Hb. }
    fold samples. cbn [fst snd tracking heap trace].
    split; [lia|]. split; [done|]. split; [|split; [done|apply Hcount]].
    eexists _, _. split; [done|]. split.
    + apply lookup_track_trim0, length_step_states.
    + apply lookup_track_trim1, length_step_states.
  - rewrite (track_all_exit_never_run _ _ _ _ v) by
      (try done; intros i Hi; by apply (exit_index_None _ _ _ _ _ _ Hidx)).
    fold samples. cbn [fst snd heap trace].
    split; [lia|]. split; [done|]. split; [|split; [done|apply Hcount]].
    eexists _, _. split; [done|]. split.
    + apply lookup_track0.
    + apply lookup_track1.
Qed.

(** X3.  An exit condition that holds of none of the [n] samples changes
    nothing but the trace, without tracking and with [trackint = 1]: the
    run returns what the run without exit condition returns, in the same
    heap.  (With [trackint > 1] this need not hold: the loops of the
    two branches do not have the same bounds.) *)
Theorem exit_never_same_result fn f h method t y v n p w :
  heap w !! y = Some (Arr1 v) ->
  (forall t' v', length (setstep f method h t' v').2 = length v') ->
  exit_index p (setstep f method h) 1 n (t, v) = None ->
  let run exitcond trackint :=
    iterator numpy_strict setstep fn f h method t (Some y) (Some n) exitcond
      trackint w in
  ((run (Some p) TNone).1 = (run None TNone).1 /\
   heap (run (Some p) TNone).2 = heap (run None TNone).2) /\
  ((run (Some p) (TInt 1)).1 = (run None (TInt 1)).1 /\
   heap (run (Some p) (TInt 1)).2 = heap (run None (TInt 1)).2).
Proof.
  intros Hy Hstep Hidx run. subst run. cbv beta. split.
  - by apply (no_tracking_exit_never numpy_strict setstep fn f h method t y v).
  - unfold iterator. cbn [default from_option id Z.eqb Pos.eqb].
    rewrite (track_all_run _ _ _ _ v) by done.
    rewrite (track_all_exit_never_run _ _ _ _ v); [done|done|done|].
    intros i Hi. by apply (exit_index_None _ _ _ _ _ _ Hidx).
Qed.

End TrackAllExit.

(** X4.  With [trackint = 1] the range given to [np.delete],
    [range(i+1, nmax+1)], lies within the [nmax + 1] entries of the
    arrays: no index is ever rejected, and the run is the same under both
    behaviours of [np.delete], whatever the exit condition. *)
Theorem track_all_numpy_independent {F Eqn Method : Type}
    (setstep : Eqn -> Method -> F -> F -> list F -> F * list F)
    fn f h method t y v n exitcond (w : world (F:=F)) :
  heap w !! y = Some (Arr1 v) ->
  (forall t' v', length (setstep f method h t' v').2 = length v') ->
  iterator true setstep fn f h method t (Some y) (Some n) exitcond (TInt 1) w
  = iterator false setstep fn f h method t (Some y) (Some n) exitcond
      (TInt 1) w.
Proof.
  intros Hy Hstep. unfold iterator.
  cbn [default from_option id Z.eqb Pos.eqb].
  set (step := setstep f method h) in *.
  destruct exitcond as [p|].
  - destruct (exit_index p step 1 n (t, v)) as [k|] eqn:Hidx.
    + apply exit_index_Some in Hidx as (Hk & Hf & Hb).
      unfold fires in Hf, Hb. rewrite Nat.mul_1_r in Hf.
      assert (Hb' : forall i, 1 <= i < k ->
                p (after step i (t, v)).1 (after step i (t, v)).2 = false).
      { intros i Hi. specialize (Hb i Hi). by rewrite Nat.mul_1_r in Hb. }
      by rewrite !(track_all_exit_run _ _ _ _ _ v n k).
    + assert (Hnever : forall i, 1 <= i <= n ->
                fires p step 1 (t, v) i = false).
      { intros i Hi. by apply (exit_index_None _ _ _ _ _ _ Hidx). }
      by rewrite !(track_all_exit_never_run _ _ _ _ _ v).
  - by rewrite !(track_all_run _ _ _ _ v).
Qed.

Lemma track_all_numpy_independent_witness :
  Demo.run true 7 5 (Some (fun t _ => (2 <=? t)%Z)) (TInt 1)
  = Demo.run false 7 5 (Some (fun t _ => (2 <=? t)%Z)) (TInt 1).
Proof.
  apply (track_all_numpy_independent Demo.setstep (Function 0) tt 0%Z tt 0%Z
           0 [0; 0]%Z 5 (Some (fun t _ => (2 <=? t)%Z)) (Demo.w0 7) eq_refl
           demo_step_length).
Defined.

Lemma track_all_exit_samples_witness :
  let run := Demo.run true 7 5 (Some (fun t _ => (2 <=? t)%Z)) (TInt 1) in
  (exists t_arr y_arr,
     run.1 = Done (Trajectory t_arr y_arr) /\
     heap run.2 !! t_arr = Some (Arr1 [0; 1; 2]%Z) /\
     heap run.2 !! y_arr = Some (Arr2 2 [[0; 0]; [10; 10]; [20; 20]]%Z)) /\
  step_calls (trace run.2) = 2 /\
  exit_calls (trace run.2) = 2.
Proof.
  pose proof (track_all_exit_samples true Demo.setstep (Function 0) tt 0%Z tt
                0%Z 0 [0; 0]%Z 5 (fun t _ => (2 <=? t)%Z) (Demo.w0 7) eq_refl
                demo_step_length)
    as (_ & _ & H1 & _ & H2 & H3).
  split; [exact H1|]. split; [exact H2|exact H3].
Defined.

Lemma exit_never_same_result_witness :
  let run exitcond trackint := Demo.run true 7 3 exitcond trackint in
  (run (Some (fun _ _ => false)) TNone).1 = Done (FinalState 3%Z 3) /\
  (run (Some (fun _ _ => false)) (TInt 1)).1 = Done (Trajectory 1 2) /\
  heap (run (Some (fun _ _ => false)) (TInt 1)).2 !! 1
  = Some (Arr1 [0; 1; 2; 3]%Z).
Proof.
  pose proof (exit_never_same_result true Demo.setstep (Function 0) tt 0%Z tt
                0%Z 0 [0; 0]%Z 3 (fun _ _ => false) (Demo.w0 7) eq_refl
                demo_step_length eq_refl)
    as [[H1 _] [H2 H3]].
  split; [exact H1|]. split; [exact H2|].
  exact (f_equal (fun h => h !! 1) H3).
Defined.

(** ** Errors of the assignments to the tracking arrays *)

Section Errors.
Context {F : Type}.
Implicit Types (w : world (F:=F)) (l : loc) (E : exn -> world (F:=F) -> Prop).

Lemma wp_setitem_raise l T i x (Q : unit -> world -> Prop) E w :
  heap w !! l = Some (Arr1 T) -> length T <= i -> E IndexError w ->
  wp (setitem l i x) Q E w.
Proof.
  unfold wp, setitem, bind, load. intros -> Hi HE.
  by rewrite decide_False by lia.
Qed.

Lemma wp_setrow_raise l c Y i v (Q : unit -> world -> Prop) E w :
  heap w !! l = Some (Arr2 c Y) -> i < length Y ->
  length v <> c -> length v <> 1 -> E ValueError w ->
  wp (setrow l i v) Q E w.
Proof.
  unfold wp, setrow, bind, load. intros -> Hi Hc H1 HE.
  rewrite decide_True, decide_False by done.
  by destruct v as [|x [|x' v']].
Qed.

(** Recording a sample whose state has not the width of the rows. *)
Lemma wp_record_mismatch w m c xs r tr i t' y' v'
    (Q : unit -> world -> Prop) E :
  state_at w r y' v' ->
  length v' <> m -> length v' <> 1 ->
  length xs <= c -> i < c ->
  (forall w', trace w' = trace w ++ tr -> E ValueError w') ->
  wp (record_sample (length (heap w)) (S (length (heap w))) i t' y') Q E
     (tracking w m c xs r tr).
Proof.
  intros Hy Hm H1 Hxs Hi HE. unfold record_sample, tracking.
  apply wp_bind. eapply wp_setitem.
  { cbn [heap]. apply lookup_track0. }
  { rewrite length_written; rewrite length_junk1, ?length_fmap; lia. }
  cbn [heap trace uninit]. rewrite insert_track0.
  apply wp_bind. eapply wp_contents; [apply Hy|].
  eapply wp_setrow_raise.
  { cbn [heap]. apply lookup_track1. }
  { rewrite length_written; rewrite length_junk2, ?length_fmap; lia. }
  { done. }
  { done. }
  by apply HE.
Qed.

End Errors.

Section LengthMismatch.
Context {F Eqn Method : Type}.
Variable numpy_strict : bool.
Variable setstep : Eqn -> Method -> F -> F -> list F -> F * list F.
Implicit Types (w : world (F:=F)).

(** X5.  The tracking arrays have rows of the width of the initial state.
    When tracking is enabled and the first sample to be recorded has a
    state of another length (and not of length one, which NumPy
    broadcasts), the run ends with [ValueError] at the assignment of that
    sample and returns nothing: after one call of the advance operation
    with [trackint = 1], after [N] calls with [trackint = N > 1].  The
    exit condition is not called. *)
Theorem state_length_checked fn f h method t y v n N exitcond w :
  heap w !! y = Some (Arr1 v) ->
  1 <= n ->
  1 < N ->
  let step := setstep f method h in
  let run trackint :=
    iterator numpy_strict setstep fn f h method t (Some y) (Some n) exitcond
      trackint w in
  (length (step t v).2 <> length v -> length (step t v).2 <> 1 ->
   (run (TInt 1)).1 = Raise ValueError /\
   trace (run (TInt 1)).2 = trace w ++ [EvStep t v]) /\
  (length (after step N (t, v)).2 <> length v ->
   length (after step N (t, v)).2 <> 1 ->
   (run (TInt (Z.of_nat N))).1 = Raise ValueError /\
   trace (run (TInt (Z.of_nat N))).2 = trace w ++ step_events step N (t, v)).
Proof.
  intros Hy Hn HN step run. subst run. cbv beta. split.
  - intros Hlen Hone.
    unfold iterator. cbn [default from_option id Z.eqb Pos.eqb]. fold step.
    apply (wp_post _ (fun rw => rw.1 = Raise ValueError /\
                                trace rw.2 = trace w ++ [EvStep t v])).
    unfold track_all. eapply wp_track_setup; [done|lia|].
    destruct n as [|n']; [lia|].
    assert (Hbody : forall A (k : M (F:=F) A),
      wp (bind (getitem (length (heap w)) (1 - 1)) (fun ti =>
          bind (getrow (S (length (heap w))) (1 - 1)) (fun vi =>
          bind (apply_step step ti vi) (fun '(t', y') =>
          bind (record_sample (length (heap w)) (S (length (heap w))) 1
                  t' y') (fun _ => k)))))
         (fun _ _ => False)
         (fun e w' => e = ValueError /\ trace w' = trace w ++ [EvStep t v])
         (tracking w (length v) (S n' + 1) [(t, v)] [] [])).
    { intros A k.
      apply wp_bind. eapply (wp_getitem_tracking _ _ _ _ _ _ _ (t, v)); [done|].
      apply wp_bind. eapply (wp_getrow_tracking _ _ _ _ _ _ _ (t, v)); [done|].
      apply wp_bind, wp_apply_step_tracking. cbn [fst snd app].
      apply wp_bind. eapply wp_record_mismatch.
      - by apply (state_at_new w [] _ 0).
      - done.
      - done.
      - simpl. lia.
      - lia.
      - intros w' Hw'. done. }
    destruct exitcond as [p|]; apply wp_bind;
      unfold range; replace (S n' + 1 - 1) with (S n') by lia;
      cbn [seq for_in]; apply wp_bind;
      (eapply wp_mono; [| |apply Hbody]; [done|]);
      by intros e w' [-> Htr].
  - intros Hlen Hone.
    rewrite iterator_interval by done. fold step.
    apply (wp_post _ (fun rw => rw.1 = Raise ValueError /\
                                trace rw.2
                                = trace w ++ step_events step N (t, v))).
    unfold track_interval. rewrite capacity_nat by lia.
    eapply wp_track_setup; [done|lia|].
    rewrite ntrack_of_nat, !Nat2Z.id by lia.
    pose proof (intervals_bounds n N ltac:(lia)) as [HK1 HK2].
    assert (HK : 1 <= intervals n N) by nia.
    assert (Hbody : forall A (k : F -> loc -> M (F:=F) A),
      wp (bind (take_steps step N t y) (fun '(t', y'') =>
          bind (record_sample (length (heap w)) (S (length (heap w))) 1
                  t' y'') (fun _ => k t' y'')))
         (fun _ _ => False)
         (fun e w' => e = ValueError /\
                      trace w' = trace w ++ step_events step N (t, v))
         (tracking w (length v) (S (S (intervals n N))) [(t, v)] [] [])).
    { intros A k.
      apply wp_bind. eapply wp_take_steps_tracking; [by apply state_at_old|].
      cbn [app]. apply wp_bind. eapply wp_record_mismatch.
      - apply (state_at_steps step w [] y t v N). by apply state_at_old.
      - done.
      - done.
      - simpl. lia.
      - lia.
      - intros w' Hw'. done. }
    destruct exitcond as [p|]; apply wp_bind; unfold range.
    + replace (n + 1 - 1) with (S (n - 1)) by lia.
      cbn [seq for_in]. apply wp_bind.
      (eapply wp_mono; [| |apply Hbody]; [done|]).
      by intros e w' [-> Htr].
    + replace (1 + intervals n N - 1) with (S (intervals n N - 1)) by lia.
      cbn [seq for_in]. apply wp_bind.
      (eapply wp_mono; [| |apply Hbody]; [done|]).
      by intros e w' [-> Htr].
Qed.

End LengthMismatch.

(** ** Tracking of every [N]-th step, with an exit condition *)

Section TrackIntervalExit.
Context {F Eqn Method : Type}.
Variable numpy_strict : bool.
Variable setstep : Eqn -> Method -> F -> F -> list F -> F * list F.
Implicit Types (w : world (F:=F)).

(** The main loop of the branch with an exit condition runs over
    [range(1, nmax+1)], and the arrays have [intervals n N + 2] entries:
    when the exit condition holds of none of the samples the arrays have
    room for, the assignment of the next sample is out of bounds. *)
Lemma track_interval_overflow_run step p t y v n N w :
  heap w !! y = Some (Arr1 v) ->
  (forall t' v', length (step t' v').2 = length v') ->
  1 < N ->
  let K := intervals n N in
  1 + K < n ->
  (forall i, 1 <= i <= 1 + K -> fires p step N (t, v) i = false) ->
  track_interval numpy_strict step (Some p) n (Z.of_nat N) t y w
  = (Raise IndexError,
     tracking w (length v) (S (S K)) (tracked step N (S (S K)) (t, v))
       (step_states step (S (S K) * N) (t, v))
       (interval_events step N (S K) (t, v)
          ++ step_events step N (after step (S K * N) (t, v)))).
Proof.
  intros Hy Hstep HN K Hover Hnever.
  apply (wp_post _ (fun rw => rw = _)).
  unfold track_interval. rewrite capacity_nat by lia. fold K.
  eapply wp_track_setup; [done|lia|].
  apply wp_bind. change (range 1 (n + 1)) with (seq 1 (n + 1 - 1)).
  replace (n + 1 - 1) with n by lia. rewrite Nat2Z.id.
  apply (wp_for_seq (fun j io st w' =>
    j <= S K /\
    st.1.1.1 = (after step (j * N) (t, v)).1 /\
    st.1.2 = length (heap w) /\ st.2 = S (length (heap w)) /\
    state_at w (step_states step (j * N) (t, v)) st.1.1.2
      (after step (j * N) (t, v)).2 /\
    w' = tracking w (length v) (S (S K)) (tracked step N (S j) (t, v))
           (step_states step (j * N) (t, v))
           (interval_events step N j (t, v)))).
  - intros j io [[[t' y'] ta] ya] w' Hj (HjK & Ht & Hta & Hya & Hst & ->).
    cbn [fst snd] in *. subst t' ta ya.
    destruct (decide (j = S K)) as [->|Hne].
    + apply wp_bind. eapply wp_take_steps_tracking; [exact Hst|].
      rewrite <- surjective_pairing, <- step_states_add.
      replace (S K * N + N) with (S (S K) * N) by lia.
      apply wp_bind. unfold record_sample. apply wp_bind.
      eapply wp_setitem_raise.
      * unfold tracking. cbn [heap]. apply lookup_track0.
      * rewrite length_written;
          rewrite length_junk1, ?length_fmap, ?length_tracked; lia.
      * done.
    + eapply wp_interval_iteration; [done|done|done|lia|].
      intros y'' Hy''.
      assert (Hlast : tracked step N (S (S j)) (t, v) !! (1 + j)
                      = Some (after step (S j * N) (t, v)))
        by (apply tracked_lookup; lia).
      apply wp_bind. eapply wp_getitem_tracking; [exact Hlast|].
      apply wp_bind. eapply wp_getrow_tracking; [exact Hlast|].
      apply wp_bind, wp_apply_exit_tracking.
      rewrite <- app_assoc, <- interval_events_S_r.
      specialize (Hnever (S j) ltac:(lia)). unfold fires in Hnever.
      rewrite Hnever.
      apply wp_ret. cbn [fst snd]. repeat split; try done. lia.
  - intros io st w' (Hlt & _). lia.
  - cbn [fst snd]. repeat split; try done; try lia.
    by apply state_at_old.
Qed.

(** C4.  In the every-[N] mode with an exit condition [p], each
    iteration of the main loop makes [N] calls of the advance operation and
    then one call of [p], on the sample just recorded: [p] is never called
    after a sub-step or on the initial sample.  The main loop runs over
    [range(1, nmax+1)], and the arrays have room for the tracked samples
    up to [1 + intervals n N].

    When [p] first holds at a tracked sample [k], the loop is left and the
    trailing computation does not run: the events of the run are those of
    [k] intervals.  But the run does not always truncate the arrays to
    the samples produced.  The range given to [np.delete],
    [range(k+1, n+1)], is made for arrays of [n + 1] entries: under
    [numpy_strict] it is rejected when it goes beyond the arrays, and the
    run ends with [IndexError] and returns nothing; when it is accepted,
    the arrays returned hold the [k + 1] samples followed by the entries
    of index above [n], for [n = 1] one entry that was never written.

    When [p] holds of none of the [n] samples and the arrays have room for
    them, the loop completes and the trailing sub-steps follow the events
    of the [n] intervals.  When there are more than the arrays have room
    for, the loop does not complete: the assignment of the first sample
    beyond the arrays ends the run with [IndexError]. *)
Theorem interval_exit_checks fn f h method t y v n N p w :
  heap w !! y = Some (Arr1 v) ->
  (forall t' v', length (setstep f method h t' v').2 = length v') ->
  1 < N ->
  let step := setstep f method h in
  let K := intervals n N in
  let l := length (heap w) in
  let run :=
    iterator numpy_strict setstep fn f h method t (Some y) (Some n) (Some p)
      (TInt (Z.of_nat N)) w in
  (forall k,
     exit_index p step N (Nat.min n (1 + K)) (t, v) = Some k ->
     let samples := tracked step N (S k) (t, v) in
     let rest1 := drop (n + 1) (junk1 w l (K + 2)) in
     let rest2 := drop (n + 1) (junk2 w (S l) (K + 2) (length v)) in
     trace run.2 = trace w ++ interval_events step N k (t, v) /\
     if numpy_strict && bool_decide (k < n /\ 1 + K < n)
     then run.1 = Raise IndexError
     else
       run.1 = Done (Trajectory (S (S (l + k * N))) (S (S (S (l + k * N))))) /\
       heap run.2 !! S (S (l + k * N)) = Some (Arr1 (samples.*1 ++ rest1)) /\
       heap run.2 !! S (S (S (l + k * N)))
       = Some (Arr2 (length v) (samples.*2 ++ rest2)) /\
       length samples = k + 1 /\
       length rest1 = (if decide (n = 1) then 1 else 0) /\
       length rest2 = (if decide (n = 1) then 1 else 0)) /\
  (exit_index p step N (Nat.min n (1 + K)) (t, v) = None ->
   n <= 1 + K ->
   trace run.2
   = trace w ++ interval_events step N n (t, v)
       ++ step_events step (n + N - K * N) (after step (n * N) (t, v)) /\
   run.1 =
     if decide (n = 0) then Raise UnboundLocalError
     else Done (Trajectory l (S l))) /\
  (exit_index p step N (Nat.min n (1 + K)) (t, v) = None ->
   1 + K < n ->
   trace run.2
   = trace w ++ interval_events step N (1 + K) (t, v)
       ++ step_events step N (after step ((1 + K) * N) (t, v)) /\
   run.1 = Raise IndexError).
Proof.
  intros Hy Hstep HN step K l run. subst run l.
  rewrite iterator_interval by done. fold step.
  pose proof (intervals_bounds n N ltac:(lia)) as [HK1 HK2]. fold K in HK1, HK2.
  split; [|split].
  - intros k (Hk & Hf & Hb)%exit_index_Some samples rest1 rest2.
    rewrite (track_interval_exit_run _ _ _ _ _ v _ _ k);
      [|done|done|done|lia|lia|done|done].
    fold K step samples. subst rest1 rest2.
    replace (K + 2) with (S (S K)) by lia.
    destruct (numpy_strict && _); cbn [fst snd tracking heap trace];
      [done|].
    split; [done|]. split; [done|]. split; [|split; [|split]].
    + apply lookup_track_trim0, length_step_states.
    + apply lookup_track_trim1, length_step_states.
    + subst samples. rewrite length_tracked. lia.
    + assert (Hlen : S (S K) - (n + 1) = if decide (n = 1) then 1 else 0).
      { destruct (decide (n = 1)) as [Hn1|Hn1]; [|nia].
        assert (K = 1); [|lia].
        subst K n. unfold intervals.
        replace (1 + N - 1) with (1 * N) by lia. apply Nat.div_mul. lia. }
      rewrite !length_drop, length_junk1, length_junk2. done.
  - intros Hidx Hcap. rewrite Nat.min_l in Hidx by lia.
    rewrite (track_interval_exhausted_run _ _ _ _ _ v);
      [|done|done|done|done|].
    2:{ intros i Hi. by apply (exit_index_None _ _ _ _ _ _ Hidx). }
    fold K. cbn [fst snd tracking trace]. by destruct n.
  - intros Hidx Hover. rewrite Nat.min_r in Hidx by lia.
    rewrite (track_interval_overflow_run _ _ _ _ v);
      [|done|done|done|done|].
    2:{ intros i Hi. by apply (exit_index_None _ _ _ _ _ _ Hidx). }
    done.
Qed.

(** X6.  With [trackint = N > 1] and an exit condition [p], the main loop
    runs over [range(1, nmax+1)] while the arrays are allocated for
    [intervals n N + 1] samples and one more entry.  So when [n] is above
    [intervals n N + 1] and [p] holds of none of the first
    [intervals n N + 1] tracked samples, the run ends with [IndexError] at
    the assignment of the next sample and returns nothing, after
    [(intervals n N + 2) * N] calls of the advance operation. *)
Theorem interval_exit_overflow fn f h method t y v n N p w :
  heap w !! y = Some (Arr1 v) ->
  (forall t' v', length (setstep f method h t' v').2 = length v') ->
  1 < N ->
  let step := setstep f method h in
  let K := intervals n N in
  1 + K < n ->
  exit_index p step N (1 + K) (t, v) = None ->
  let run :=
    iterator numpy_strict setstep fn f h method t (Some y) (Some n) (Some p)
      (TInt (Z.of_nat N)) w in
  run.1 = Raise IndexError /\
  step_calls (trace run.2) = step_calls (trace w) + (K + 2) * N /\
  exit_calls (trace run.2) = exit_calls (trace w) + (K + 1).
Proof.
  intros Hy Hstep HN step K Hover Hidx run. subst run.
  rewrite iterator_interval by done. fold step.
  rewrite (track_interval_overflow_run _ _ _ _ v); [|done|done|done|done|].
  2:{ intros i Hi. by apply (exit_index_None _ _ _ _ _ _ Hidx). }
  fold K. cbn [fst snd tracking trace]. split; [done|].
  rewrite !step_calls_app, !exit_calls_app, step_calls_interval_events,
    exit_calls_interval_events, step_calls_step_events,
    exit_calls_step_events.
  split; lia.
Qed.

(** X7.  With [trackint = N > 1] and an exit condition [p], [nmax] does not
    bound the number of calls of the advance operation.  When [p] first
    holds at the tracked sample [k] (within the arrays), the advance
    operation has been called [k * N] times and [p] [k] times, whether the
    run then returns or ends in the [IndexError] of [np.delete].  When [p]
    holds of none of the [n] samples (and the arrays have room for them),
    the trailing sub-steps are added to the [n * N] calls of the loop. *)
Theorem interval_exit_calls fn f h method t y v n N p w :
  heap w !! y = Some (Arr1 v) ->
  (forall t' v', length (setstep f method h t' v').2 = length v') ->
  1 < N ->
  let step := setstep f method h in
  let K := intervals n N in
  let run :=
    iterator numpy_strict setstep fn f h method t (Some y) (Some n) (Some p)
      (TInt (Z.of_nat N)) w in
  (forall k,
     exit_index p step N n (t, v) = Some k -> k <= 1 + K ->
     step_calls (trace run.2) = step_calls (trace w) + k * N /\
     exit_calls (trace run.2) = exit_calls (trace w) + k) /\
  (exit_index p step N n (t, v) = None -> n <= 1 + K ->
   step_calls (trace run.2) = step_calls (trace w) + n * N + (n + N - K * N) /\
   exit_calls (trace run.2) = exit_calls (trace w) + n).
Proof.
  intros Hy Hstep HN step K run. subst run.
  rewrite iterator_interval by done. fold step. split.
  - intros k (Hk & Hf & Hb)%exit_index_Some Hcap.
    rewrite (track_interval_exit_run _ _ _ _ _ v _ _ k) by done.
    destruct (numpy_strict && _); cbn [fst snd tracking trace];
      rewrite !step_calls_app, !exit_calls_app, step_calls_interval_events,
        exit_calls_interval_events; done.
  - intros Hidx Hcap.
    rewrite (track_interval_exhausted_run _ _ _ _ _ v); [|done|done|done|done|].
    2:{ intros i Hi. by apply (exit_index_None _ _ _ _ _ _ Hidx). }
    cbn [fst snd tracking trace]. fold K.
    rewrite !step_calls_app, !exit_calls_app, step_calls_interval_events,
      exit_calls_interval_events, step_calls_step_events,
      exit_calls_step_events.
    split; lia.
Qed.

(** X8.  With [trackint = N > 1], an exit condition that holds of none
    of the [n >= 1] samples, and arrays with room for them: the trailing
    sub-steps (at least one) are taken from the last tracked sample on and
    their result is recorded at the index the loop variable was left at,
    [n], over that sample.  The returned time array holds the tracked
    samples of index below [n] and, at index [n], the time after [n * N]
    steps and the trailing sub-steps, in place of the time after [n * N]
    steps, the sample the exit condition was last called on. *)
Theorem interval_exit_tail_overwrites fn f h method t y v n N p w :
  heap w !! y = Some (Arr1 v) ->
  (forall t' v', length (setstep f method h t' v').2 = length v') ->
  1 < N ->
  1 <= n ->
  let step := setstep f method h in
  let K := intervals n N in
  let tail := n + N - K * N in
  let l := length (heap w) in
  n <= 1 + K ->
  exit_index p step N n (t, v) = None ->
  let run :=
    iterator numpy_strict setstep fn f h method t (Some y) (Some n) (Some p)
      (TInt (Z.of_nat N)) w in
  run.1 = Done (Trajectory l (S l)) /\
  1 <= tail /\
  exists T,
    heap run.2 !! l = Some (Arr1 T) /\
    length T = K + 2 /\
    (forall i, i < n -> T !! i = Some (after step (i * N) (t, v)).1) /\
    T !! n = Some (after step (n * N + tail) (t, v)).1.
Proof.
  intros Hy Hstep HN Hn step K tail l Hcap Hidx run. subst run.
  pose proof (intervals_bounds n N ltac:(lia)) as [HK1 HK2].
  rewrite iterator_interval by done. fold step.
  rewrite (track_interval_exhausted_run _ _ _ _ _ v); [|done|done|done|done|].
  2:{ intros i Hi. by apply (exit_index_None _ _ _ _ _ _ Hidx). }
  fold K tail. destruct n as [|n']; [lia|].
  cbn [fst snd tracking heap]. split; [done|]. split; [subst tail K; lia|].
  eexists. split; [apply lookup_track0|].
  set (samples := tracked step N (S n') (t, v)
                    ++ [after step (S n' * N + tail) (t, v)]).
  assert (Hlen : length samples.*1 = S (S n')).
  { subst samples. rewrite length_fmap, length_app, length_tracked.
    simpl. lia. }
  split; [|split].
  - rewrite length_written; rewrite length_junk1; lia.
  - intros i Hi. rewrite written_lookup_l by lia.
    subst samples. rewrite list_lookup_fmap, lookup_app_l
      by (rewrite length_tracked; lia).
    by rewrite tracked_lookup.
  - rewrite written_lookup_l by lia.
    subst samples. rewrite list_lookup_fmap.
    rewrite <- (length_tracked step N (S n') (t, v)) at 1.
    by rewrite list_lookup_middle.
Qed.

End TrackIntervalExit.

Lemma state_length_checked_witness :
  let run trackint :=
    iterator true (fun _ _ _ => Demo.grow) (Function 0) tt 0%Z tt 0%Z
      (Some 0) (Some 4) None trackint (Demo.w0 7) in
  ((run (TInt 1)).1 = Raise ValueError /\
   trace (run (TInt 1)).2 = [EvStep 0 [0; 0]]%Z) /\
  ((run (TInt 2)).1 = Raise ValueError /\
   trace (run (TInt 2)).2 = [EvStep 0 [0; 0]; EvStep 1 [0; 0; 0]]%Z).
Proof.
  pose proof (state_length_checked true (fun _ _ _ => Demo.grow) (Function 0)
                tt 0%Z tt 0%Z 0 [0; 0]%Z 4 2 None (Demo.w0 7) eq_refl
                ltac:(lia) ltac:(lia)) as [H1 H2].
  split.
  - apply H1; simpl; lia.
  - apply H2; simpl; lia.
Defined.

Lemma interval_exit_overflow_witness :
  let run := Demo.run true 7 4 (Some (fun _ _ => false)) (TInt 2) in
  run.1 = Raise IndexError /\
  step_calls (trace run.2) = 8 /\
  exit_calls (trace run.2) = 3.
Proof.
  apply (interval_exit_overflow true Demo.setstep (Function 0) tt 0%Z tt
           0%Z 0 [0; 0]%Z 4 2 (fun _ _ => false) (Demo.w0 7) eq_refl
           demo_step_length ltac:(lia)).
  - vm_compute. lia.
  - reflexivity.
Defined.

Lemma interval_exit_checks_witness :
  (let run := Demo.run true 7 2 (Some (fun t _ => (4 <=? t)%Z)) (TInt 2) in
   trace run.2 = interval_events Demo.step 2 2 (0%Z, [0; 0]%Z) /\
   run.1 = Done (Trajectory 7 8) /\
   heap run.2 !! 7 = Some (Arr1 [0; 2; 4]%Z)) /\
  (let run := Demo.run true 7 5 (Some (fun _ _ => true)) (TInt 2) in
   trace run.2 = interval_events Demo.step 2 1 (0%Z, [0; 0]%Z) /\
   run.1 = Raise IndexError) /\
  (let run := Demo.run true 7 1 (Some (fun _ _ => true)) (TInt 2) in
   run.1 = Done (Trajectory 5 6) /\
   heap run.2 !! 5 = Some (Arr1 [0; 2; 7]%Z)) /\
  (let run := Demo.run true 7 2 (Some (fun _ _ => false)) (TInt 2) in
   trace run.2
   = interval_events Demo.step 2 2 (0%Z, [0; 0]%Z)
       ++ step_events Demo.step 2 (after Demo.step 4 (0%Z, [0; 0]%Z)) /\
   run.1 = Done (Trajectory 1 2)) /\
  (let run := Demo.run true 7 4 (Some (fun _ _ => false)) (TInt 2) in
   trace run.2
   = interval_events Demo.step 2 3 (0%Z, [0; 0]%Z)
       ++ step_events Demo.step 2 (after Demo.step 6 (0%Z, [0; 0]%Z)) /\
   run.1 = Raise IndexError).
Proof.
  split; [|split; [|split; [|split]]].
  - pose proof (interval_exit_checks true Demo.setstep (Function 0) tt 0%Z tt
                  0%Z 0 [0; 0]%Z 2 2 (fun t _ => (4 <=? t)%Z) (Demo.w0 7)
                  eq_refl demo_step_length ltac:(lia)) as [Hfire _].
    destruct (Hfire 2 eq_refl) as (H1 & H2 & H3 & _).
    split; [exact H1|]. split; [exact H2|exact H3].
  - pose proof (interval_exit_checks true Demo.setstep (Function 0) tt 0%Z tt
                  0%Z 0 [0; 0]%Z 5 2 (fun _ _ => true) (Demo.w0 7)
                  eq_refl demo_step_length ltac:(lia)) as [Hfire _].
    exact (Hfire 1 eq_refl).
  - pose proof (interval_exit_checks true Demo.setstep (Function 0) tt 0%Z tt
                  0%Z 0 [0; 0]%Z 1 2 (fun _ _ => true) (Demo.w0 7)
                  eq_refl demo_step_length ltac:(lia)) as [Hfire _].
    destruct (Hfire 1 eq_refl) as (_ & H2 & H3 & _).
    split; [exact H2|exact H3].
  - pose proof (interval_exit_checks true Demo.setstep (Function 0) tt 0%Z tt
                  0%Z 0 [0; 0]%Z 2 2 (fun _ _ => false) (Demo.w0 7)
                  eq_refl demo_step_length ltac:(lia)) as (_ & Hnever & _).
    apply (Hnever eq_refl). vm_compute. lia.
  - pose proof (interval_exit_checks true Demo.setstep (Function 0) tt 0%Z tt
                  0%Z 0 [0; 0]%Z 4 2 (fun _ _ => false) (Demo.w0 7)
                  eq_refl demo_step_length ltac:(lia)) as (_ & _ & Hover).
    apply (Hover eq_refl). vm_compute. lia.
Defined.

Lemma interval_exit_tail_overwrites_witness :
  let run := Demo.run true 99 3 (Some (fun _ _ => false)) (TInt 2) in
  run.1 = Done (Trajectory 1 2) /\
  exists T,
    heap run.2 !! 1 = Some (Arr1 T) /\
    length T = 4 /\
    T !! 3 = Some 7%Z.
Proof.
  destruct (interval_exit_tail_overwrites true Demo.setstep (Function 0) tt
              0%Z tt 0%Z 0 [0; 0]%Z 3 2 (fun _ _ => false) (Demo.w0 99)
              eq_refl demo_step_length ltac:(lia) ltac:(lia))
    as (H1 & _ & T & H2 & H3 & _ & H4).
  - vm_compute. lia.
  - reflexivity.
  - split; [exact H1|]. exists T. split; [exact H2|]. split; [exact H3|].
    exact H4.
Defined.

Lemma interval_exit_calls_witness :
  let run := Demo.run true 7 2 (Some (fun t _ => (4 <=? t)%Z)) (TInt 2) in
  step_calls (trace run.2) = 4 /\ exit_calls (trace run.2) = 2.
Proof.
  pose proof (interval_exit_calls true Demo.setstep (Function 0) tt 0%Z tt
                0%Z 0 [0; 0]%Z 2 2 (fun t _ => (4 <=? t)%Z) (Demo.w0 7)
                eq_refl demo_step_length ltac:(lia)) as [Hfire _].
  apply (Hfire 2); [reflexivity|].
  vm_compute. lia.
Defined.

(** ** The default of [nmax] and the objects a run leaves as they are *)

Section Defaults.
Context {F Eqn Method : Type}.
Variable numpy_strict : bool.
Variable setstep : Eqn -> Method -> F -> F -> list F -> F * list F.
Implicit Types (w : world (F:=F)).

(** X10.  When [nmax] is omitted, a run without tracking and without exit
    condition calls the advance operation 1000 times and returns the
    sample after 1000 steps. *)
Theorem default_nmax_steps fn f h method t y v w :
  heap w !! y = Some (Arr1 v) ->
  let step := setstep f method h in
  let run :=
    iterator numpy_strict setstep fn f h method t (Some y) None None TNone w in
  run.1 = Done (FinalState (after step 1000 (t, v)).1
                  (state_loc y (length (heap w)) 1000)) /\
  step_calls (trace run.2) = step_calls (trace w) + 1000.
Proof.
  intros Hy step run.
  assert (Hrun : run = iterator numpy_strict setstep fn f h method t (Some y)
                         (Some 1000) None TNone w) by reflexivity.
  rewrite Hrun, (no_tracking_run _ _ _ _ _ _ _ _ v) by exact Hy.
  cbn [fst snd trace]. split; [reflexivity|].
  by rewrite step_calls_app, step_calls_step_events.
Qed.

(** X11.  A run assigns only to arrays it allocated itself: whatever the
    arguments and however the run ends, every object that existed before
    the call (the caller's state, the default state, the arrays returned
    by earlier runs) is afterwards what it was before. *)
Theorem run_extends_heap fn f h method t yo nmax exitcond trackint v w :
  heap w !! default (y_default fn) yo = Some (Arr1 v) ->
  let run :=
    iterator numpy_strict setstep fn f h method t yo nmax exitcond trackint
      w in
  length (heap w) <= length (heap run.2) /\
  forall l a, heap w !! l = Some a -> heap run.2 !! l = Some a.
Proof.
  intros Hy run.
  pose proof (iterator_frame numpy_strict setstep fn f h method t yo nmax
                exitcond trackint v w Hy) as [[ext Hext] _].
  fold run in Hext. rewrite Hext. split.
  - rewrite length_app. lia.
  - intros l a Hl. by apply lookup_app_l_Some.
Qed.

End Defaults.

(** X12.  The arithmetic of the trailing interval: [ntrack] is one more than
    the number of intervals [ceil(n / N)], and
    [nmax - (ntrack-2)*trackint] is what is left of [n] after all the
    intervals but one: [n mod N] steps, or [N] when [N] divides [n]. *)
Theorem tail_steps_partial n N :
  1 <= N ->
  ntrack_of n (Z.of_nat N) = Z.of_nat (1 + intervals n N) /\
  (n <= intervals n N * N < n + N) /\
  tail_steps n (Z.of_nat N)
  = Z.of_nat (if n mod N =? 0 then N else n mod N) /\
  ((ntrack_of n (Z.of_nat N) - 2) * Z.of_nat N + tail_steps n (Z.of_nat N)
   = Z.of_nat n)%Z.
Proof.
  intros HN.
  pose proof (ntrack_of_nat n N ltac:(lia)) as Hntrack.
  pose proof (intervals_bounds n N ltac:(lia)) as [HK1 HK2].
  split; [done|]. split; [lia|]. split; [|unfold tail_steps; lia].
  unfold tail_steps. rewrite Hntrack.
  pose proof (Nat.div_mod n N ltac:(lia)) as Hdm.
  pose proof (Nat.mod_upper_bound n N ltac:(lia)) as Hm.
  set (K := intervals n N) in *. set (q := n / N) in *. set (r := n mod N) in *.
  destruct (Nat.eqb_spec r 0) as [Hr|Hr].
  - assert (K = q) by nia. nia.
  - assert (K = S q) by nia. nia.
Qed.

Lemma default_nmax_steps_witness :
  step_calls
    (trace (iterator true Demo.setstep (Function 0) tt 0%Z tt 0%Z (Some 0)
              None None TNone (Demo.w0 7)).2)
  = 1000.
Proof.
  apply (default_nmax_steps true Demo.setstep (Function 0) tt 0%Z tt 0%Z 0
           [0; 0]%Z (Demo.w0 7) eq_refl).
Defined.

Lemma run_extends_heap_witness :
  heap (Demo.run true 7 4 (Some (fun _ _ => false)) (TInt 2)).2 !! 0
  = Some (Arr1 [0; 0]%Z).
Proof.
  apply (run_extends_heap true Demo.setstep (Function 0) tt 0%Z tt 0%Z
           (Some 0) (Some 4) (Some (fun _ _ => false)) (TInt 2) [0; 0]%Z
           (Demo.w0 7) eq_refl).
  reflexivity.
Defined.

Lemma tail_steps_partial_witness :
  ntrack_of 7 5 = 3%Z /\ tail_steps 7 5 = 2%Z /\ tail_steps 10 5 = 5%Z.
Proof.
  destruct (tail_steps_partial 7 5 ltac:(lia)) as (H1 & _ & H2 & _).
  destruct (tail_steps_partial 10 5 ltac:(lia)) as (_ & _ & H3 & _).
  split; [exact H1|]. split; [exact H2|exact H3].
Defined.
